(** * ResultSet: reshaping and reduction of round-robin tournament outcomes

    A shallow embedding of [axelrod/result_set.py].  A Python object is its
    attribute dictionary (a finite map from attribute names to values), a
    Python exception is the [Raise] branch of an error monad, the [for]
    loops are monadic folds over [range], and list subscripts are bounds
    checked the way Python checks them. *)

From Stdlib Require Import Ascii String QArith Qreduction.
From stdpp Require Import gmap strings list fin_maps pretty.

Set Warnings "-clear-no-such-hyp".

Local Open Scope string_scope.
Local Open Scope list_scope.
Local Open Scope nat_scope.

(** ** Exceptions and the error monad *)

Inductive exn : Set :=
  | IndexError
  | TypeError
  | ZeroDivisionError
  | AttributeError.

Inductive result (A : Type) : Type :=
  | Ok (a : A)
  | Raise (e : exn).
Arguments Ok {A} a.
Arguments Raise {A} e.

Definition bind {A B : Type} (m : result A) (f : A → result B) : result B :=
  match m with
  | Ok a => f a
  | Raise e => Raise e
  end.

Declare Scope result_scope.
Delimit Scope result_scope with result.
Notation "x ← y ; z" := (bind y (λ x, z))
  (at level 20, y at level 100, z at level 200, only parsing) : result_scope.
Local Open Scope result_scope.

(** [for x in l: s = body x s] *)
Fixpoint for_each {A S : Type} (l : list A) (body : A → S → result S) (s : S)
    : result S :=
  match l with
  | [] => Ok s
  | x :: l' => s' ← body x s; for_each l' body s'
  end.

(** [range(n)] and [enumerate(l)] *)
Definition range (n : nat) : list nat := seq 0 n.
Definition enumerate {A : Type} (l : list A) : list (nat * A) :=
  zip (seq 0 (length l)) l.

(** [l[i]] and [l[i] = v] on a Python list, for a non-negative index. *)
Definition getitem {A : Type} (l : list A) (i : nat) : result A :=
  match l !! i with
  | Some x => Ok x
  | None => Raise IndexError
  end.

Definition setitem {A : Type} (l : list A) (i : nat) (v : A) : result (list A) :=
  if decide (i < length l) then Ok (<[i:=v]> l) else Raise IndexError.

(** [m[i][j]], [t[i][j][k]] and [t[i][j][k] = v] *)
Definition getitem2 {A : Type} (m : list (list A)) (i j : nat) : result A :=
  row ← getitem m i; getitem row j.

Definition getitem3 {A : Type} (t : list (list (list A))) (i j k : nat)
    : result A :=
  row ← getitem t i; cell ← getitem row j; getitem cell k.

Definition setitem2 {A : Type} (m : list (list A)) (i j : nat) (v : A)
    : result (list (list A)) :=
  row ← getitem m i;
  row' ← setitem row j v;
  Ok (<[i:=row']> m).

Definition setitem3 {A : Type} (t : list (list (list A))) (i j k : nat) (v : A)
    : result (list (list (list A))) :=
  row ← getitem t i;
  cell ← getitem row j;
  cell' ← setitem cell k v;
  Ok (<[i:=<[j:=cell']> row]> t).

(** Total subscripts, used to state properties. *)
Definition at2 {A : Type} (m : list (list A)) (i j : nat) : option A :=
  match m !! i with
  | Some row => row !! j
  | None => None
  end.
Definition at3 {A : Type} (t : list (list (list A))) (i j k : nat) : option A :=
  match at2 t i j with
  | Some cell => cell !! k
  | None => None
  end.

(** ** Numbers

    The values carried by a channel are Python numbers.  The engine only
    subtracts them, divides them by [float(turns)], averages them with
    [numpy.mean], negates them and prints them with [str]. *)

Class Numeric (num : Type) := {
  zero : num;
  sub : num → num → num;
  neg : num → num;
  div : num → num → num;
  float : nat → num;
  mean : list num → num;
  str : num → string;
}.

(** What exact (rational) arithmetic guarantees about those operations. *)
Class ExactArith (num : Type) `{!Numeric num} := {
  sub_antisym : ∀ a b, sub a b = neg (sub b a);
  sub_diag : ∀ a, sub a a = zero;
  div_neg : ∀ a t, div (neg a) t = neg (div a t);
  div_zero : ∀ t, div zero t = zero;
  mean_neg : ∀ l, mean (neg <$> l) = neg (mean l);
}.

(** [a / float(t)]: true division raises on a zero divisor. *)
Definition truediv {num : Type} `{!Numeric num} (a : num) (t : nat) : result num :=
  if decide (t = 0) then Raise ZeroDivisionError else Ok (div a (float t)).

(** ** Values and objects *)

Inductive value (num : Type) : Type :=
  | VNone
  | VInt (n : nat)
  | VStrs (l : list string)
  | VInts (l : list nat)
  | VVec (l : list num)
  | VMat (m : list (list num))
  | VTen (t : list (list (list num)))
  | VDict (d : gmap string (list (list (list num)))).
Arguments VNone {num}.
Arguments VInt {num} n.
Arguments VStrs {num} l.
Arguments VInts {num} l.
Arguments VVec {num} l.
Arguments VMat {num} m.
Arguments VTen {num} t.
Arguments VDict {num} d.

(** [self.name] *)
Definition getattr {num : Type} (self : gmap string (value num)) (name : string)
    : result (value num) :=
  match self !! name with
  | Some v => Ok v
  | None => Raise AttributeError
  end.

(** [range(v)] *)
Definition range_of {num : Type} (v : value num) : result (list nat) :=
  match v with
  | VInt n => Ok (range n)
  | _ => Raise TypeError
  end.

(** [len(v)] *)
Definition len {num : Type} (v : value num) : result nat :=
  match v with
  | VNone | VInt _ => Raise TypeError
  | VStrs l => Ok (length l)
  | VInts l => Ok (length l)
  | VVec l => Ok (length l)
  | VMat m => Ok (length m)
  | VTen t => Ok (length t)
  | VDict d => Ok (size d)
  end.

(** [v] used as a number: [float(v)], [numpy.zeros((v, v))] *)
Definition int_of {num : Type} (v : value num) : result nat :=
  match v with
  | VInt n => Ok n
  | _ => Raise TypeError
  end.

(** [range(self.name)], [len(self.name)] and [self.name] used as a number *)
Definition attr_range {num : Type} (self : gmap string (value num))
    (name : string) : result (list nat) :=
  v ← getattr self name; range_of v.
Definition attr_len {num : Type} (self : gmap string (value num))
    (name : string) : result nat :=
  v ← getattr self name; len v.
Definition attr_int {num : Type} (self : gmap string (value num))
    (name : string) : result nat :=
  v ← getattr self name; int_of v.

(** ** The missing modules

    [axelrod.payoff] (imported as [ap]) and [axelrod.cooperation] (imported
    as [ac]) are not part of the file under study.  The constructor only
    stores what they return, so they are taken as parameters: functions
    that may raise and whose results have the shape their callers document
    (a matrix, a ranking of player indices, a list of names, a vector). *)

Class PayoffModule (num : Type) := {
  ap_scores : list (list (list num)) → nat → nat → result (list (list num));
  ap_normalised_scores : list (list num) → nat → nat → result (list (list num));
  ap_ranking : list (list num) → nat → result (list nat);
  ap_ranked_names : list string → list nat → result (list string);
  ap_normalised_payoff :
    list (list (list num)) → nat → nat
    → result (list (list num) * list (list num));
  ap_wins : list (list (list num)) → nat → nat → result (list (list num));
}.

Class CooperationModule (num : Type) := {
  ac_cooperation_matrix : list (list (list num)) → result (list (list num));
  ac_normalised_cooperation :
    list (list num) → nat → nat → result (list (list num));
  ac_vengeful_cooperation : list (list num) → result (list (list num));
  ac_cooperating_rating :
    list (list num) → nat → nat → nat → result (list num);
  ac_good_partner_matrix :
    list (list (list num)) → nat → nat → result (list (list num));
  ac_good_partner_rating : list (list num) → nat → nat → result (list num);
  ac_eigenvector : list (list num) → result (list num);
}.

(** ** [csv.writer(..., lineterminator="\n").writerow]

    The default dialect: comma delimiter, minimal quoting with the double
    quote as quote character, quote characters doubled inside a quoted
    field, and a lone empty field written as a pair of quotes. *)

Definition newline : string := String "010"%char "".
Definition dquote : ascii := "034"%char.

Definition special (c : ascii) : bool :=
  bool_decide (c ∈ [","%char; dquote; "013"%char; "010"%char]).

Fixpoint needs_quote (field : string) : bool :=
  match field with
  | EmptyString => false
  | String c rest => special c || needs_quote rest
  end.

Fixpoint double_quotes (field : string) : string :=
  match field with
  | EmptyString => EmptyString
  | String c rest =>
      if bool_decide (c = dquote)
      then String dquote (String dquote (double_quotes rest))
      else String c (double_quotes rest)
  end.

Definition quote_field (field : string) : string :=
  if needs_quote field
  then String dquote (double_quotes field) +:+ String dquote ""
  else field.

(** [",".join(l)] *)
Fixpoint join (sep : string) (l : list string) : string :=
  match l with
  | [] => ""
  | [x] => x
  | x :: rest => x +:+ sep +:+ join sep rest
  end.

Definition writerow (fields : list string) : string :=
  match fields with
  | [""] => String dquote (String dquote "") +:+ newline
  | _ => join "," (quote_field <$> fields) +:+ newline
  end.

(** [[f(x) for x in l]] where [f] may raise *)
Fixpoint comprehension {A B : Type} (f : A → result B) (l : list A)
    : result (list B) :=
  match l with
  | [] => Ok []
  | x :: rest => y ← f x; ys ← comprehension f rest; Ok (y :: ys)
  end.

(** ** The class [ResultSet] *)

Section ResultSet.
Context {num : Type} `{!Numeric num}
        `{!PayoffModule num} `{!CooperationModule num}.

Abbreviation matrix := (list (list num)).
Abbreviation tensor := (list (list (list num))).
Abbreviation bundle := (gmap string (list (list (list num)))).
Abbreviation obj := (gmap string (value num)).

(** [self._null_results_matrix] *)
Definition _null_results_matrix (self : obj) : result tensor :=
  plist ← attr_range self "nplayers";
  replist ← attr_range self "repetitions";
  Ok ((λ i : nat, (λ j : nat, (λ r : nat, zero) <$> replist) <$> plist)
        <$> plist).

(** [self._null_matrix] *)
Definition _null_matrix (self : obj) : result matrix :=
  plist ← attr_range self "nplayers";
  Ok ((λ i : nat, (λ j : nat, zero) <$> plist) <$> plist).

(** The two inner loops of [_results]: copy one repetition. *)
Definition copy_repetition (self : obj) (index : nat) (result_matrix : matrix)
    (matrix : tensor) : result tensor :=
  n ← attr_len self "players";
  for_each (range n) (λ i matrix,
    n ← attr_len self "players";
    for_each (range n) (λ j matrix,
      v ← getitem2 result_matrix i j;
      setitem3 matrix i j index v) matrix) matrix.

(** The body of the loop over [outcome.items()].  The canonical tensor is
    bound in [results] at the end of every repetition; being the same
    list object throughout, the binding always shows its latest state. *)
Definition reshape_channel (self : obj) (result_type : string)
    (result_list : tensor) (results : bundle) : result bundle :=
  matrix ← _null_results_matrix self;
  st ← for_each (enumerate result_list) (λ '(index, result_matrix) st,
         matrix ← copy_repetition self index result_matrix st.1;
         Ok (matrix, <[result_type:=matrix]> st.2)) (matrix, results);
  Ok st.2.

(** [self._results(outcome)].  The order in which a dictionary is walked
    is not observable here: every exception raised is an [IndexError]
    and the result is a dictionary. *)
Definition _results (self : obj) (outcome : bundle) : result bundle :=
  map_fold (λ result_type result_list acc,
              results ← acc;
              reshape_channel self result_type result_list results)
           (Ok ∅) outcome.

(** [(payoff[player][opponent][repetition]
      - payoff[opponent][player][repetition]) / float(self.turns)] *)
Definition payoff_diff (self : obj) (payoff : tensor)
    (player opponent repetition : nat) : result num :=
  a ← getitem3 payoff player opponent repetition;
  b ← getitem3 payoff opponent player repetition;
  turns ← attr_int self "turns";
  truediv (sub a b) turns.

(** [self._score_diffs(payoff)] *)
Definition _score_diffs (self : obj) (payoff : tensor) : result matrix :=
  ps ← attr_range self "nplayers";
  let diffs : matrix := (λ p : nat, []) <$> ps in
  ps ← attr_range self "nplayers";
  for_each ps (λ player diffs,
    os ← attr_range self "nplayers";
    for_each os (λ opponent diffs,
      rs ← attr_range self "repetitions";
      for_each rs (λ repetition diffs,
        diff ← payoff_diff self payoff player opponent repetition;
        row ← getitem diffs player;
        Ok (<[player:=row ++ [diff]]> diffs)) diffs) diffs) diffs.

(** [self._payoff_diffs_matrix(payoff)] *)
Definition _payoff_diffs_matrix (self : obj) (payoff : tensor)
    : result matrix :=
  n ← attr_int self "nplayers";
  let diffs_matrix : matrix := replicate n (replicate n zero) in
  ps ← attr_range self "nplayers";
  for_each ps (λ player diffs_matrix,
    os ← attr_range self "nplayers";
    for_each os (λ opponent diffs_matrix,
      rs ← attr_range self "repetitions";
      diffs ← for_each rs (λ repetition diffs,
                diff ← payoff_diff self payoff player opponent repetition;
                Ok (diffs ++ [diff])) [];
      setitem2 diffs_matrix player opponent (mean diffs)) diffs_matrix)
    diffs_matrix.

(** The block under [if 'payoff' in self.results]. *)
Definition init_payoff (self : obj) (players : list string)
    (turns repetitions : nat) (payoff : tensor) : result obj :=
  scores ← ap_scores payoff (length players) repetitions;
  let self := <["scores":=VMat scores]> self in
  normalised_scores ← ap_normalised_scores scores (length players) turns;
  let self := <["normalised_scores":=VMat normalised_scores]> self in
  ranking ← ap_ranking scores (length players);
  let self := <["ranking":=VInts ranking]> self in
  ranked_names ← ap_ranked_names players ranking;
  let self := <["ranked_names":=VStrs ranked_names]> self in
  pair ← ap_normalised_payoff payoff turns repetitions;
  let self := <["payoff_matrix":=VMat pair.1]> self in
  let self := <["payoff_stddevs":=VMat pair.2]> self in
  wins ← ap_wins payoff (length players) repetitions;
  let self := <["wins":=VMat wins]> self in
  payoff_diffs_matrix ← _payoff_diffs_matrix self payoff;
  let self := <["payoff_diffs_matrix":=VMat payoff_diffs_matrix]> self in
  score_diffs ← _score_diffs self payoff;
  let self := <["score_diffs":=VMat score_diffs]> self in
  Ok self.

(** The block under [if 'cooperation' in self.results and with_morality]. *)
Definition init_cooperation (self : obj) (players : list string)
    (turns repetitions : nat) (coop : tensor) : result obj :=
  cooperation ← ac_cooperation_matrix coop;
  let self := <["cooperation":=VMat cooperation]> self in
  normalised_cooperation ←
    ac_normalised_cooperation cooperation turns repetitions;
  let self := <["normalised_cooperation":=VMat normalised_cooperation]> self in
  vengeful_cooperation ← ac_vengeful_cooperation normalised_cooperation;
  let self := <["vengeful_cooperation":=VMat vengeful_cooperation]> self in
  cooperating_rating ←
    ac_cooperating_rating cooperation (length players) turns repetitions;
  let self := <["cooperating_rating":=VVec cooperating_rating]> self in
  good_partner_matrix ←
    ac_good_partner_matrix coop (length players) repetitions;
  let self := <["good_partner_matrix":=VMat good_partner_matrix]> self in
  good_partner_rating ←
    ac_good_partner_rating good_partner_matrix (length players) repetitions;
  let self := <["good_partner_rating":=VVec good_partner_rating]> self in
  eigenjesus_rating ← ac_eigenvector normalised_cooperation;
  let self := <["eigenjesus_rating":=VVec eigenjesus_rating]> self in
  eigenmoses_rating ← ac_eigenvector vengeful_cooperation;
  let self := <["eigenmoses_rating":=VVec eigenmoses_rating]> self in
  Ok self.

(** The attributes the constructor sets to [None] before any reducer. *)
Definition none_attributes : list string :=
  [ "scores"; "normalised_scores"; "ranking"; "ranked_names";
    "payoff_matrix"; "wins"; "cooperation"; "normalised_cooperation";
    "vengeful_cooperation"; "cooperating_rating"; "good_partner_matrix";
    "good_partner_rating"; "eigenjesus_rating"; "eigenmoses_rating" ].

(** [ResultSet.__init__]: the object is the attribute dictionary built. *)
Definition __init__ (players : list string) (turns repetitions : nat)
    (outcome : bundle) (with_morality : bool) : result obj :=
  let self : obj := ∅ in
  let self := <["players":=VStrs players]> self in
  let self := <["nplayers":=VInt (length players)]> self in
  let self := <["turns":=VInt turns]> self in
  let self := <["repetitions":=VInt repetitions]> self in
  let self := <["outcome":=VDict outcome]> self in
  results ← _results self outcome;
  let self := <["results":=VDict results]> self in
  let self := foldl (λ self name, <[name:=VNone]> self) self none_attributes in
  self ← match results !! "payoff" with
         | Some payoff => init_payoff self players turns repetitions payoff
         | None => Ok self
         end;
  self ← match results !! "cooperation" with
         | Some coop =>
             if with_morality
             then init_cooperation self players turns repetitions coop
             else Ok self
         | None => Ok self
         end;
  Ok self.

(** [",".join(v)], [for rank in v] and [v[i][j]] on an attribute that holds
    [None] or what the constructor stored in it. *)
Definition join_names (sep : string) (v : value num) : result string :=
  match v with
  | VStrs l => Ok (join sep l)
  | _ => Raise TypeError
  end.

Definition iterate (v : value num) : result (list nat) :=
  match v with
  | VInts l => Ok l
  | _ => Raise TypeError
  end.

Definition subscript2 (v : value num) (i j : nat) : result num :=
  match v with
  | VMat m => getitem2 m i j
  | _ => Raise TypeError
  end.

(** [ResultSet.csv]: the string accumulated in the [StringIO] buffer. *)
Definition csv (self : obj) : result string :=
  ranked_names ← getattr self "ranked_names";
  joined ← join_names "," ranked_names;
  let header := joined +:+ newline in
  let csv_string := header in
  ireps ← attr_range self "repetitions";
  for_each ireps (λ irep csv_string,
    ranking ← getattr self "ranking";
    ranks ← iterate ranking;
    data ← comprehension
             (λ rank, normalised_scores ← getattr self "normalised_scores";
                      subscript2 normalised_scores rank irep) ranks;
    Ok (csv_string +:+ writerow (str <$> data))) csv_string.

End ResultSet.

(** ** Exact rational arithmetic

    Rationals kept in lowest terms, the arithmetic of Python's
    [fractions.Fraction]: every operation is exact. *)

Definition Qsum (l : list Q) : Q := foldr Qplus 0%Q l.

Definition Qstr (q : Q) : string :=
  if decide (Qden q = 1%positive)
  then pretty (Qnum q)
  else pretty (Qnum q) +:+ "/" +:+ pretty (Zpos (Qden q)).

#[global] Instance Q_numeric : Numeric Q := {|
  zero := 0%Q;
  sub a b := Qred (a - b);
  neg a := Qred (- a);
  div a b := Qred (a / b);
  float n := inject_Z (Z.of_nat n);
  mean l := Qred (Qsum l / inject_Z (Z.of_nat (length l)));
  str := Qstr;
|}.

(** ** Shapes and the reshaping as the specification words it *)

(** [self] carries the configuration the constructor stores first. *)
Definition configured {num : Type} (self : gmap string (value num))
    (players : list string) (T R : nat) : Prop :=
  self !! "players" = Some (VStrs players)
  ∧ self !! "nplayers" = Some (VInt (length players))
  ∧ self !! "turns" = Some (VInt T)
  ∧ self !! "repetitions" = Some (VInt R).

(** A tensor of [N] rows of [M] cells of [R] values each. *)
Definition shaped {A : Type} (N M R : nat) (t : list (list (list A))) : Prop :=
  length t = N
  ∧ ∀ i row, t !! i = Some row →
      length row = M ∧ ∀ j cell, row !! j = Some cell → length cell = R.

(** A raw channel is consistent with the configuration: [R] repetitions of
    [N] rows of [N] values. *)
Definition consistent {A : Type} (N R : nat) (raw : list (list (list A))) : Prop :=
  shaped R N N raw.

(** A raw channel the copy loops can walk: no repetition beyond [R] (when
    there is a player to copy for), and every repetition matrix has an
    entry at every [i, j < N]. *)
Definition fits {A : Type} (N R : nat) (raw : list (list (list A))) : bool :=
  bool_decide (N = 0 ∨ length raw ≤ R)
  && forallb (λ result_matrix,
       forallb (λ i,
         forallb (λ j, bool_decide (is_Some (at2 result_matrix i j)))
                 (range N))
               (range N)) raw.

(** The player-major tensor of a raw channel: entry [i][j][r] is
    [raw[r][i][j]], and [0] where the channel has no repetition [r]. *)
Definition canonical {num : Type} `{!Numeric num} (N R : nat)
    (raw : list (list (list num))) : list (list (list num)) :=
  (λ i, (λ j, (λ r, default zero (at3 raw r i j)) <$> range R) <$> range N)
    <$> range N.

(** What [_results] binds for a channel: nothing for an empty channel. *)
Definition reshaped {num : Type} `{!Numeric num} (N R : nat)
    (raw : list (list (list num))) : option (list (list (list num))) :=
  match raw with
  | [] => None
  | _ => Some (canonical N R raw)
  end.

(** ** The modules over the rationals

    Instances of the two missing modules, to run the constructor on
    examples. *)

Definition entry (t : list (list (list Q))) (i j r : nat) : Q :=
  default 0%Q (at3 t i j r).

Definition Qof_nat (n : nat) : Q := inject_Z (Z.of_nat n).

Definition Qmean (l : list Q) : Q := Qred (Qsum l / Qof_nat (length l)).

(** Modelled from the spec: [ap.scores], per player and repetition the
    payoff summed over every opponent index. *)
Definition sample_scores (payoff : list (list (list Q))) (N R : nat)
    : list (list Q) :=
  (λ i, (λ r, Qred (Qsum ((λ j, entry payoff i j r) <$> range N))) <$> range R)
    <$> range N.

(** Modelled from the spec: [ap.normalised_scores], every score divided by
    [(N-1) * T]. *)
Definition sample_normalised_scores (scores : list (list Q)) (N T : nat)
    : list (list Q) :=
  (λ row : list Q, (λ s, Qred (s / Qof_nat ((N - 1) * T))) <$> row) <$> scores.

(** Modelled from the spec: [ap.ranking], the player indices in a stable
    sort by descending mean score. *)
Fixpoint insert_descending (key : nat → Q) (i : nat) (l : list nat)
    : list nat :=
  match l with
  | [] => [i]
  | j :: rest =>
      if Qle_bool (key i) (key j)
      then j :: insert_descending key i rest
      else i :: j :: rest
  end.

Definition sample_ranking (scores : list (list Q)) (N : nat) : list nat :=
  foldl (λ ranked i,
           insert_descending (λ p, Qmean (default [] (scores !! p))) i ranked)
        [] (range N).

(** Modelled from the spec: [ap.ranked_names], the ranking applied to the
    player names. *)
Definition sample_ranked_names (players : list string) (ranking : list nat)
    : result (list string) :=
  comprehension (getitem players) ranking.

(** Modelled from the spec: [ap.normalised_payoff], mean and spread over the
    repetitions of the payoff per turn of every ordered pair.  A standard
    deviation is not a rational number in general: this instance returns
    the population variance, its square, in its place. *)
Definition per_turn (payoff : list (list (list Q))) (T R i j : nat) : list Q :=
  (λ r, Qred (entry payoff i j r / Qof_nat T)) <$> range R.

Definition Qvariance (l : list Q) : Q :=
  Qmean ((λ x, Qred ((x - Qmean l) * (x - Qmean l))) <$> l).

Definition sample_normalised_payoff (payoff : list (list (list Q))) (T R : nat)
    : list (list Q) * list (list Q) :=
  let N := length payoff in
  ((λ i, (λ j, Qmean (per_turn payoff T R i j)) <$> range N) <$> range N,
   (λ i, (λ j, Qvariance (per_turn payoff T R i j)) <$> range N) <$> range N).

(** Modelled from the spec: [ap.wins], per player and repetition the number
    of opponents whose payoff the player's strictly exceeds. *)
Definition sample_wins (payoff : list (list (list Q))) (N R : nat)
    : list (list Q) :=
  (λ i, (λ r, Qof_nat (length (List.filter
           (λ j, negb (Qle_bool (entry payoff i j r) (entry payoff j i r)))
           (range N)))) <$> range R) <$> range N.

#[global] Instance Q_payoff : PayoffModule Q := {|
  ap_scores payoff N R := Ok (sample_scores payoff N R);
  ap_normalised_scores scores N T := Ok (sample_normalised_scores scores N T);
  ap_ranking scores N := Ok (sample_ranking scores N);
  ap_ranked_names := sample_ranked_names;
  ap_normalised_payoff payoff T R := Ok (sample_normalised_payoff payoff T R);
  ap_wins payoff N R := Ok (sample_wins payoff N R);
|}.

(** Modelled from the spec: [ac.cooperation_matrix], the cooperation count
    of every ordered pair summed over the repetitions. *)
Definition sample_cooperation_matrix (coop : list (list (list Q)))
    : list (list Q) :=
  (λ row : list (list Q), (λ cell, Qred (Qsum cell)) <$> row) <$> coop.

(** Modelled from the spec: [ac.normalised_cooperation], every entry divided
    by [T * R]. *)
Definition sample_normalised_cooperation (cooperation : list (list Q))
    (T R : nat) : list (list Q) :=
  (λ row : list Q, (λ c, Qred (c / Qof_nat (T * R))) <$> row) <$> cooperation.

(** Modelled from the spec: [ac.vengeful_cooperation], [2 * c - 1]. *)
Definition sample_vengeful_cooperation (normalised : list (list Q))
    : list (list Q) :=
  (λ row : list Q, (λ c, Qred (2 * c - 1)) <$> row) <$> normalised.

(** Modelled from the spec: [ac.cooperating_rating], the cooperation given
    divided by [(N-1) * T * R]. *)
Definition sample_cooperating_rating (cooperation : list (list Q))
    (N T R : nat) : list Q :=
  (λ row, Qred (Qsum row / Qof_nat ((N - 1) * T * R))) <$> cooperation.

(** Modelled from the spec: [ac.good_partner_matrix], for every ordered pair
    the number of repetitions in which the player cooperated at least as
    often as the opponent. *)
Definition sample_good_partner_matrix (coop : list (list (list Q)))
    (N R : nat) : list (list Q) :=
  (λ i, (λ j, Qof_nat (length (List.filter
           (λ r, Qle_bool (entry coop j i r) (entry coop i j r))
           (range R)))) <$> range N) <$> range N.

(** Modelled from the spec: [ac.good_partner_rating], the row sums of the
    good-partner matrix divided by [(N-1) * R]. *)
Definition sample_good_partner_rating (good_partner_matrix : list (list Q))
    (N R : nat) : list Q :=
  (λ row, Qred (Qsum row / Qof_nat ((N - 1) * R))) <$> good_partner_matrix.

(** Modelled from the spec: [ac.eigenvector], the dominant eigenvector by
    power iteration, here a fixed number of steps each normalised to unit
    sum so that the iterates stay rational. *)
Definition Qdot (u v : list Q) : Q := Qred (Qsum (zip_with Qmult u v)).

Definition unit_sum (v : list Q) : list Q :=
  (λ x, Qred (x / Qsum v)) <$> v.

Fixpoint power_iteration (steps : nat) (m : list (list Q)) (v : list Q)
    : list Q :=
  match steps with
  | 0 => v
  | S steps' => power_iteration steps' m (unit_sum ((λ row, Qdot row v) <$> m))
  end.

Definition sample_eigenvector (m : list (list Q)) : list Q :=
  power_iteration 4 m (replicate (length m) 1%Q).

#[global] Instance Q_cooperation : CooperationModule Q := {|
  ac_cooperation_matrix coop := Ok (sample_cooperation_matrix coop);
  ac_normalised_cooperation cooperation T R :=
    Ok (sample_normalised_cooperation cooperation T R);
  ac_vengeful_cooperation normalised :=
    Ok (sample_vengeful_cooperation normalised);
  ac_cooperating_rating cooperation N T R :=
    Ok (sample_cooperating_rating cooperation N T R);
  ac_good_partner_matrix coop N R := Ok (sample_good_partner_matrix coop N R);
  ac_good_partner_rating good_partner_matrix N R :=
    Ok (sample_good_partner_rating good_partner_matrix N R);
  ac_eigenvector m := Ok (sample_eigenvector m);
|}.

(** A tournament of two players, two turns and two repetitions. *)
Definition two_players : list string := ["Cooperator"; "Defector"].

Definition two_payoff : list (list (list Q)) :=
  [ [[6; 0]; [10; 2]]; [[6; 3]; [7; 2]] ]%Q.

Definition two_cooperation : list (list (list Q)) :=
  [ [[2; 2]; [0; 0]]; [[2; 1]; [1; 0]] ]%Q.

Definition two_outcome : gmap string (list (list (list Q))) :=
  <["payoff":=two_payoff]> (<["cooperation":=two_cooperation]> ∅).

(** The configuration part of an engine, as the constructor stores it
    before it reshapes the outcome. *)
Definition configuration {num : Type} (players : list string) (T R : nat)
    (outcome : gmap string (list (list (list num))))
    : gmap string (value num) :=
  <["outcome":=VDict outcome]>
    (<["repetitions":=VInt R]>
      (<["turns":=VInt T]>
        (<["nplayers":=VInt (length players)]>
          (<["players":=VStrs players]> ∅)))).

(** ** The payoff differences as the specification words them *)

(** A matrix of [N] rows of [M] values. *)
Definition mshaped {A : Type} (N M : nat) (m : list (list A)) : Prop :=
  length m = N ∧ ∀ i row, m !! i = Some row → length row = M.

(** [(payoff[i][j][r] - payoff[j][i][r]) / T] *)
Definition per_turn_diff {num : Type} `{!Numeric num} (T : nat)
    (payoff : list (list (list num))) (i j r : nat) : num :=
  div (sub (default zero (at3 payoff i j r)) (default zero (at3 payoff j i r)))
      (float T).

(** The differences of one ordered pair, one per repetition. *)
Definition pair_diffs {num : Type} `{!Numeric num} (T R : nat)
    (payoff : list (list (list num))) (i j : nat) : list num :=
  (λ r, per_turn_diff T payoff i j r) <$> range R.

(** The differences of one player: opponent-major, repetition-minor. *)
Definition player_diffs {num : Type} `{!Numeric num} (T R N : nat)
    (payoff : list (list (list num))) (i : nat) : list num :=
  concat ((λ j, pair_diffs T R payoff i j) <$> range N).

(** ** The attributes of an engine *)

(** The engine as the constructor leaves it before the first reducer: the
    configuration, the reshaped results, and [None] in the attributes of
    [none_attributes]. *)
Definition blank_object {num : Type} (players : list string) (T R : nat)
    (outcome results : gmap string (list (list (list num))))
    : gmap string (value num) :=
  foldl (λ self name, <[name:=VNone]> self)
        (<["results":=VDict results]> (configuration players T R outcome))
        none_attributes.

(** The attributes the payoff block assigns. *)
Definition payoff_attributes : list string :=
  [ "scores"; "normalised_scores"; "ranking"; "ranked_names";
    "payoff_matrix"; "payoff_stddevs"; "wins"; "payoff_diffs_matrix";
    "score_diffs" ].

(** The attributes the cooperation block assigns. *)
Definition cooperation_attributes : list string :=
  [ "cooperation"; "normalised_cooperation"; "vengeful_cooperation";
    "cooperating_rating"; "good_partner_matrix"; "good_partner_rating";
    "eigenjesus_rating"; "eigenmoses_rating" ].

(** ** The exported table as the specification words it *)

(** A field the writer leaves as it is. *)
Definition plain (field : string) : bool :=
  negb (needs_quote field) && negb (bool_decide (field = "")).

(** The data rows, each comma-joined and ended by a line feed. *)
Definition table_lines (rows : list (list string)) : string :=
  foldr (λ row rest, join "," row +:+ newline +:+ rest) "" rows.

(** The fields of data row [irep]: the normalised score of every ranked
    player for that repetition, printed. *)
Definition exported_row {num : Type} `{!Numeric num}
    (normalised_scores : list (list num)) (ranking : list nat) (irep : nat)
    : list string :=
  (λ rank, str (default zero (at2 normalised_scores rank irep))) <$> ranking.

(** A raw channel the copy loops cannot walk: a repetition beyond [R] while
    there is a player to copy for, or a repetition matrix that lacks an
    entry at some [i, j < N]. *)
Definition malformed {A : Type} (N R : nat) (raw : list (list (list A)))
    : Prop :=
  (0 < N ∧ R < length raw)
  ∨ ∃ r result_matrix i j,
      raw !! r = Some result_matrix ∧ i < N ∧ j < N
      ∧ at2 result_matrix i j = None.

(** A decision procedure for [shaped]. *)
Definition shapedb {A : Type} (N M R : nat) (t : list (list (list A))) : bool :=
  bool_decide (length t = N)
  && forallb (λ row, bool_decide (length row = M)
                     && forallb (λ cell, bool_decide (length cell = R)) row) t.

(** ** Example engines *)

(** The two-player tournament reshaped: player-major payoff. *)
Definition two_canonical_payoff : list (list (list Q)) :=
  [ [[6; 6]; [0; 3]]; [[10; 7]; [2; 2]] ]%Q.

(** The engine a successful construction returns. *)
Definition built (r : result (gmap string (value Q))) : gmap string (value Q) :=
  match r with
  | Ok obj => obj
  | Raise _ => ∅
  end.

(** Whether a call returned. *)
Definition returns {A : Type} (r : result A) : bool :=
  match r with
  | Ok _ => true
  | Raise _ => false
  end.

Definition two_engine : gmap string (value Q) :=
  built (__init__ two_players 2 2 two_outcome true).

Definition two_engine_plain : gmap string (value Q) :=
  built (__init__ two_players 2 2 two_outcome false).

(** A bundle without payoff channel, and the engine built from it. *)
Definition cooperation_outcome : gmap string (list (list (list Q))) :=
  <["cooperation":=two_cooperation]> ∅.

Definition cooperation_engine : gmap string (value Q) :=
  built (__init__ two_players 2 2 cooperation_outcome true).

(** A bundle whose payoff channel has no repetition. *)
Definition empty_payoff_outcome : gmap string (list (list (list Q))) :=
  <["payoff":=[]]> cooperation_outcome.

(** A bundle for three repetitions whose payoff channel has two. *)
Definition short_outcome : gmap string (list (list (list Q))) :=
  <["payoff":=two_payoff]> ∅.

(** ** Reading the exported table back *)

(** [text.split(sep)] for a separator of one character. *)
Fixpoint split_on (sep : ascii) (text : string) : list string :=
  match text with
  | EmptyString => [EmptyString]
  | String c rest =>
      if bool_decide (c = sep)
      then EmptyString :: split_on sep rest
      else match split_on sep rest with
           | [] => [String c EmptyString]
           | field :: fields => String c field :: fields
           end
  end.

(** [c in text] *)
Fixpoint occurs (c : ascii) (text : string) : bool :=
  match text with
  | EmptyString => false
  | String c' rest => bool_decide (c' = c) || occurs c rest
  end.

Definition comma : ascii := ","%char.
Definition line_feed : ascii := "010"%char.

(** * Properties *)

(** ** The error monad and the loops *)

Lemma bind_Ok {A B : Type} (m : result A) (f : A → result B) (b : B) :
  bind m f = Ok b ↔ ∃ a, m = Ok a ∧ f a = Ok b.
Proof.
  destruct m as [a|e]; simpl; split.
  - intros Hf. exists a. by split.
  - by intros (a' & [= ->] & ?).
  - done.
  - by intros (a' & ? & _).
Qed.

Lemma bind_Raise {A B : Type} (m : result A) (f : A → result B) (e : exn) :
  bind m f = Raise e ↔ m = Raise e ∨ ∃ a, m = Ok a ∧ f a = Raise e.
Proof.
  destruct m as [a|e']; simpl; split.
  - intros Hf. right. exists a. by split.
  - by intros [?|(a' & [= ->] & ?)].
  - intros [= ->]. by left.
  - intros [[= ->]|(a' & ? & _)]; done.
Qed.

(** Inversion of a chain of binds that returned. *)
Ltac invert_binds H :=
  repeat (let x := fresh "x" in
          let Hx := fresh "Hx" in
          apply bind_Ok in H as (x & Hx & H)).

(** A goal about an attribute name that a hypothesis confines to a list of
    names, by cases on the name. *)
Ltac by_attribute_cases Ha :=
  try unfold none_attributes in Ha;
  try unfold payoff_attributes in Ha;
  try unfold cooperation_attributes in Ha;
  rewrite ?elem_of_cons, ?elem_of_nil in Ha;
  destruct_or?; subst; try done; compute_done.

(** [a ∉ [x1; ...; xn]] as [a ≠ x1], ..., [a ≠ xn]. *)
Ltac split_not_elem H :=
  repeat (let Hne := fresh "Hne" in apply not_elem_of_cons in H as [Hne H]).

Lemma for_each_app {A S : Type} (l1 l2 : list A) (body : A → S → result S) s :
  for_each (l1 ++ l2) body s = bind (for_each l1 body s) (for_each l2 body).
Proof.
  revert s. induction l1 as [|x l1 IH]; intros s; simpl; [done|].
  destruct (body x s); simpl; auto.
Qed.

Lemma range_S (n : nat) : range (S n) = range n ++ [n].
Proof. unfold range. by rewrite seq_S. Qed.

Lemma enumerate_snoc {A : Type} (l : list A) (x : A) :
  enumerate (l ++ [x]) = enumerate l ++ [(length l, x)].
Proof.
  unfold enumerate. rewrite length_app; simpl.
  rewrite Nat.add_1_r, seq_S, zip_with_app by (by rewrite length_seq).
  done.
Qed.

(** A loop over [range n] whose body keeps an invariant runs to its end. *)
Lemma for_range_total {S : Type} (P : nat → S → Prop) (Q : S → Prop) (n : nat)
    (body : nat → S → result S) (s : S) :
  P 0 s →
  (∀ k s1, k < n → P k s1 → ∃ s2, body k s1 = Ok s2 ∧ P (Datatypes.S k) s2) →
  (∀ s', P n s' → Q s') →
  ∃ s', for_each (range n) body s = Ok s' ∧ Q s'.
Proof.
  intros H0 Hstep Hpost.
  cut (∃ s', for_each (range n) body s = Ok s' ∧ P n s').
  { intros (s' & ? & ?). exists s'. auto. }
  clear Hpost. induction n as [|n IH].
  - exists s. by split.
  - destruct IH as (s1 & Hrun & HP); [intros; apply Hstep; [lia|done]|].
    destruct (Hstep n s1) as (s2 & Hbody & HP2); [lia|done|].
    exists s2. split; [|done].
    rewrite range_S, for_each_app, Hrun. simpl. by rewrite Hbody.
Qed.

(** The same for a loop over [enumerate l]. *)
Lemma for_enumerate_total {A S : Type} (P : nat → S → Prop) (Q : S → Prop)
    (l : list A) (body : nat * A → S → result S) (s : S) :
  P 0 s →
  (∀ k x s1, l !! k = Some x → P k s1 →
     ∃ s2, body (k, x) s1 = Ok s2 ∧ P (Datatypes.S k) s2) →
  (∀ s', P (length l) s' → Q s') →
  ∃ s', for_each (enumerate l) body s = Ok s' ∧ Q s'.
Proof.
  intros H0 Hstep Hpost.
  cut (∃ s', for_each (enumerate l) body s = Ok s' ∧ P (length l) s').
  { intros (s' & ? & ?). exists s'. auto. }
  clear Hpost. induction l as [|x l IH] using rev_ind.
  - exists s. by split.
  - destruct IH as (s1 & Hrun & HP).
    { intros k y s1 Hk. apply Hstep. by apply lookup_app_l_Some. }
    destruct (Hstep (length l) x s1) as (s2 & Hbody & HP2); [|done|].
    { by rewrite lookup_app_r, Nat.sub_diag. }
    exists s2. rewrite enumerate_snoc, for_each_app, Hrun, length_app. simpl.
    rewrite Hbody, Nat.add_1_r. by split.
Qed.

(** A loop that ends has run its body on every element, each time from a
    state the invariant holds of. *)
Lemma for_each_Ok_elem {A S : Type} (P : S → Prop) (l : list A)
    (body : A → S → result S) (s s' : S) :
  for_each l body s = Ok s' →
  P s →
  (∀ x s1 s2, x ∈ l → P s1 → body x s1 = Ok s2 → P s2) →
  P s' ∧ ∀ x, x ∈ l → ∃ s1 s2, P s1 ∧ body x s1 = Ok s2.
Proof.
  revert s. induction l as [|x l IH]; intros s Hrun HP Hstep; simpl in Hrun.
  - injection Hrun as <-. split; [done|]. intros x Hx. by apply elem_of_nil in Hx.
  - apply bind_Ok in Hrun as (s1 & Hbody & Hrun).
    destruct (IH s1 Hrun) as [HP' Hall].
    { eapply Hstep; [left|done|done]. }
    { intros y t1 t2 Hy. apply Hstep. by right. }
    split; [done|]. intros y [->|Hy]%elem_of_cons; eauto.
Qed.

(** A loop raises only what its body raises. *)
Lemma for_each_Raise {A S : Type} (e0 : exn) (l : list A)
    (body : A → S → result S) (s : S) (e : exn) :
  (∀ x s1 e, body x s1 = Raise e → e = e0) →
  for_each l body s = Raise e → e = e0.
Proof.
  intros Hbody. revert s. induction l as [|x l IH]; intros s; simpl; [done|].
  intros [H|(s1 & _ & H)]%bind_Raise; eauto.
Qed.

(** ** Subscripts *)

Lemma getitem_Ok {A : Type} (l : list A) i x :
  getitem l i = Ok x ↔ l !! i = Some x.
Proof. unfold getitem. destruct (l !! i); naive_solver. Qed.

Lemma getitem_Raise {A : Type} (l : list A) i e :
  getitem l i = Raise e → e = IndexError.
Proof. unfold getitem. destruct (l !! i); naive_solver. Qed.

Lemma setitem_Ok {A : Type} (l : list A) i v l' :
  setitem l i v = Ok l' ↔ i < length l ∧ l' = <[i:=v]> l.
Proof. unfold setitem. case_decide; naive_solver. Qed.

Lemma setitem_Raise {A : Type} (l : list A) i v e :
  setitem l i v = Raise e → e = IndexError.
Proof. unfold setitem. case_decide; naive_solver. Qed.

Lemma at2_insert {A : Type} (m : list (list A)) i row i' j' :
  i < length m →
  at2 (<[i:=row]> m) i' j' = if decide (i' = i) then row !! j' else at2 m i' j'.
Proof.
  intros Hi. unfold at2. rewrite list_lookup_insert.
  repeat case_decide; naive_solver.
Qed.

Section subscripts.
Context {A : Type}.
Implicit Types (m : list (list A)) (t : list (list (list A))).

Lemma getitem2_Ok m i j x : getitem2 m i j = Ok x ↔ at2 m i j = Some x.
Proof.
  unfold getitem2, at2, getitem.
  destruct (m !! i) as [row|]; simpl; [|done].
  destruct (row !! j); naive_solver.
Qed.

Lemma getitem2_Raise m i j e : getitem2 m i j = Raise e → e = IndexError.
Proof.
  unfold getitem2.
  intros [H|(? & _ & H)]%bind_Raise; by apply getitem_Raise in H.
Qed.

Lemma getitem3_Ok t i j k x : getitem3 t i j k = Ok x ↔ at3 t i j k = Some x.
Proof.
  unfold getitem3, at3, at2, getitem.
  destruct (t !! i) as [row|]; simpl; [|done].
  destruct (row !! j) as [cell|]; simpl; [|done].
  destruct (cell !! k); naive_solver.
Qed.


Lemma setitem2_Ok m i j v m' :
  setitem2 m i j v = Ok m' ↔
  ∃ row, m !! i = Some row ∧ j < length row ∧ m' = <[i:=<[j:=v]> row]> m.
Proof.
  unfold setitem2. rewrite bind_Ok. setoid_rewrite bind_Ok.
  setoid_rewrite getitem_Ok. setoid_rewrite setitem_Ok. naive_solver.
Qed.


Lemma setitem3_Ok t i j k v t' :
  setitem3 t i j k v = Ok t' ↔
  ∃ row cell, t !! i = Some row ∧ row !! j = Some cell ∧ k < length cell
              ∧ t' = <[i:=<[j:=<[k:=v]> cell]> row]> t.
Proof.
  unfold setitem3. rewrite bind_Ok. repeat setoid_rewrite bind_Ok.
  setoid_rewrite getitem_Ok. setoid_rewrite setitem_Ok. naive_solver.
Qed.

Lemma setitem3_Raise t i j k v e :
  setitem3 t i j k v = Raise e → e = IndexError.
Proof.
  unfold setitem3.
  intros [H|(? & _ & [H|(? & _ & [H|(? & _ & H)]%bind_Raise)]%bind_Raise)]
    %bind_Raise;
    [by apply getitem_Raise in H|by apply getitem_Raise in H
    |by apply setitem_Raise in H|done].
Qed.

Lemma at2_setitem2 m i j v m' i' j' :
  setitem2 m i j v = Ok m' →
  at2 m' i' j' = if decide (i' = i ∧ j' = j) then Some v else at2 m i' j'.
Proof.
  intros (row & Hrow & Hj & ->)%setitem2_Ok.
  rewrite at2_insert by (by eapply lookup_lt_Some).
  unfold at2. rewrite list_lookup_insert.
  repeat case_decide; subst; try rewrite Hrow; naive_solver.
Qed.

Lemma at3_setitem3 t i j k v t' i' j' k' :
  setitem3 t i j k v = Ok t' →
  at3 t' i' j' k' =
    if decide (i' = i ∧ j' = j ∧ k' = k) then Some v else at3 t i' j' k'.
Proof.
  intros (row & cell & Hrow & Hcell & Hk & ->)%setitem3_Ok.
  assert (Hj : j < length row) by (by eapply lookup_lt_Some).
  unfold at3. rewrite at2_insert by (by eapply lookup_lt_Some).
  destruct (decide (i' = i)) as [->|Hi]; [|by rewrite decide_False by tauto].
  unfold at2. rewrite Hrow, list_lookup_insert.
  destruct (decide (j = j' ∧ j < length row)) as [[<- _]|Hne].
  - rewrite Hcell, list_lookup_insert.
    destruct (decide (k = k' ∧ k < length cell)) as [[<- _]|Hnk].
    + by rewrite decide_True.
    + rewrite decide_False; [done|]. intros (_ & _ & ->). tauto.
  - rewrite decide_False; [done|]. intros (_ & -> & _). tauto.
Qed.

Lemma shaped_at2 N M R t i j :
  shaped N M R t → i < N → j < M →
  ∃ cell, at2 t i j = Some cell ∧ length cell = R.
Proof.
  intros [Hlen Hrows] Hi Hj. unfold at2.
  destruct (lookup_lt_is_Some_2 t i) as [row Hrow]; [lia|].
  rewrite Hrow. destruct (Hrows i row Hrow) as [HM Hcells].
  destruct (lookup_lt_is_Some_2 row j) as [cell Hcell]; [lia|].
  exists cell. eauto.
Qed.

Lemma shaped_at3 N M R t i j k :
  shaped N M R t → i < N → j < M → k < R → is_Some (at3 t i j k).
Proof.
  intros Ht Hi Hj Hk. unfold at3.
  destruct (shaped_at2 N M R t i j) as (cell & -> & Hlen); [done..|].
  apply lookup_lt_is_Some_2. lia.
Qed.

Lemma shaped_setitem3 N M R t i j k v t' :
  setitem3 t i j k v = Ok t' → shaped N M R t → shaped N M R t'.
Proof.
  intros (row & cell & Hrow & Hcell & Hk & ->)%setitem3_Ok [Hlen Hrows].
  split; [by rewrite length_insert|].
  intros i' row' [(-> & <- & _)|[_ H]]%list_lookup_insert_Some;
    [|by apply (Hrows i')].
  destruct (Hrows i' row Hrow) as [HM Hcells].
  split; [by rewrite length_insert|].
  intros j' cell' [(-> & <- & _)|[_ H]]%list_lookup_insert_Some;
    [|by apply (Hcells j')].
  rewrite length_insert. by apply (Hcells j').
Qed.

Lemma setitem3_total N M R t i j k v :
  shaped N M R t → i < N → j < M → k < R → ∃ t', setitem3 t i j k v = Ok t'.
Proof.
  intros Ht Hi Hj Hk.
  destruct (shaped_at2 N M R t i j) as (cell & Hat & Hlen); [done..|].
  unfold at2 in Hat. destruct (t !! i) as [row|] eqn:Hrow; [|done].
  eexists. apply setitem3_Ok. exists row, cell. split_and!; [done..|lia|done].
Qed.

Lemma setitem3_bound N M R t i j k v t' :
  shaped N M R t → i < N → j < M → setitem3 t i j k v = Ok t' → k < R.
Proof.
  intros Ht Hi Hj (row & cell & Hrow & Hcell & Hk & _)%setitem3_Ok.
  destruct (shaped_at2 N M R t i j) as (cell' & Hat & Hlen); [done..|].
  unfold at2 in Hat. rewrite Hrow, Hcell in Hat. by simplify_eq.
Qed.

(** Two tensors of one shape that agree at every index are equal. *)
Lemma tensor_ext N M R t1 t2 :
  shaped N M R t1 → shaped N M R t2 →
  (∀ i j k, i < N → j < M → k < R → at3 t1 i j k = at3 t2 i j k) →
  t1 = t2.
Proof.
  intros [Hl1 Hr1] [Hl2 Hr2] Hat.
  apply (list_eq_same_length _ _ N); [done..|].
  intros i row1 row2 Hi Hrow1 Hrow2.
  destruct (Hr1 i row1 Hrow1) as [HM1 Hc1].
  destruct (Hr2 i row2 Hrow2) as [HM2 Hc2].
  apply (list_eq_same_length _ _ M); [done..|].
  intros j cell1 cell2 Hj Hcell1 Hcell2.
  apply (list_eq_same_length _ _ R); [by apply (Hc2 j)|by apply (Hc1 j)|].
  intros k x y Hk Hx Hy.
  specialize (Hat i j k Hi Hj Hk). unfold at3, at2 in Hat.
  rewrite Hrow1, Hrow2, Hcell1, Hcell2, Hx, Hy in Hat. by simplify_eq.
Qed.

End subscripts.

(** ** The reshaper *)

Section reshaper.
Context {num : Type} `{!Numeric num}.
Variables (self : gmap string (value num)) (players : list string) (T R : nat).
Hypothesis Hcfg : configured self players T R.

Local Abbreviation N := (length players).

Lemma attr_len_players : attr_len self "players" = Ok N.
Proof. unfold attr_len, getattr. by rewrite (proj1 Hcfg). Qed.

Lemma attr_range_nplayers : attr_range self "nplayers" = Ok (range N).
Proof. unfold attr_range, getattr. by rewrite (proj1 (proj2 Hcfg)). Qed.

Lemma attr_int_nplayers : attr_int self "nplayers" = Ok N.
Proof. unfold attr_int, getattr. by rewrite (proj1 (proj2 Hcfg)). Qed.

Lemma attr_int_turns : attr_int self "turns" = Ok T.
Proof.
  unfold attr_int, getattr. by rewrite (proj1 (proj2 (proj2 Hcfg))).
Qed.

Lemma attr_range_repetitions : attr_range self "repetitions" = Ok (range R).
Proof.
  unfold attr_range, getattr. by rewrite (proj2 (proj2 (proj2 Hcfg))).
Qed.

Lemma null_results_matrix_canonical :
  _null_results_matrix self = Ok (canonical N R []).
Proof.
  unfold _null_results_matrix.
  by rewrite attr_range_nplayers, attr_range_repetitions.
Qed.

Lemma shaped_canonical raw : shaped N N R (canonical N R raw).
Proof.
  unfold canonical, range. split; [by rewrite length_fmap, length_seq|].
  intros i row (i' & -> & _)%list_lookup_fmap_Some.
  split; [by rewrite length_fmap, length_seq|].
  intros j cell (j' & -> & _)%list_lookup_fmap_Some.
  by rewrite length_fmap, length_seq.
Qed.

Lemma at3_canonical raw i j r :
  i < N → j < N → r < R →
  at3 (canonical N R raw) i j r = Some (default zero (at3 raw r i j)).
Proof.
  intros Hi Hj Hr. unfold canonical, range, at3 at 1, at2 at 1.
  rewrite list_lookup_fmap, lookup_seq_lt by done. simpl.
  rewrite list_lookup_fmap, lookup_seq_lt by done. simpl.
  by rewrite list_lookup_fmap, lookup_seq_lt by done.
Qed.

(** *** One repetition *)

Lemma copy_repetition_total index result_matrix t0 :
  shaped N N R t0 → N = 0 ∨ index < R →
  (∀ i j, i < N → j < N → is_Some (at2 result_matrix i j)) →
  ∃ t, copy_repetition self index result_matrix t0 = Ok t
       ∧ shaped N N R t
       ∧ ∀ i j r, at3 t i j r =
           if decide (i < N ∧ j < N ∧ r = index)
           then at2 result_matrix i j else at3 t0 i j r.
Proof.
  intros Ht0 Hindex Hrm. unfold copy_repetition.
  rewrite attr_len_players. simpl.
  apply (for_range_total
    (λ k t, shaped N N R t ∧ ∀ i j r, at3 t i j r =
       if decide (i < k ∧ j < N ∧ r = index)
       then at2 result_matrix i j else at3 t0 i j r)); [| |done].
  { split; [done|]. intros i j r. rewrite decide_False; [done|lia]. }
  intros k t1 Hk [Ht1 Hat1].
  apply (for_range_total
    (λ c t, shaped N N R t ∧ ∀ i j r, at3 t i j r =
       if decide ((i < k ∧ j < N ∨ i = k ∧ j < c) ∧ r = index)
       then at2 result_matrix i j else at3 t0 i j r)).
  - split; [done|]. intros i j r. rewrite Hat1.
    repeat case_decide; try done; lia.
  - intros c t2 Hc [Ht2 Hat2].
    destruct (Hrm k c Hk Hc) as [v Hv].
    apply getitem2_Ok in Hv as Hget. rewrite Hget. simpl.
    destruct (setitem3_total N N R t2 k c index v) as [t3 Hset];
      [done..|lia|].
    exists t3. split; [done|]. split; [by eapply shaped_setitem3|].
    intros i j r. rewrite (at3_setitem3 _ _ _ _ _ _ _ _ _ Hset), Hat2.
    repeat case_decide; try done; destruct_and?; subst; try done; lia.
  - intros t2 [Ht2 Hat2]. split; [done|].
    intros i j r. rewrite Hat2. repeat case_decide; try done; lia.
Qed.

Lemma copy_repetition_Raise index result_matrix t0 e :
  copy_repetition self index result_matrix t0 = Raise e → e = IndexError.
Proof.
  unfold copy_repetition. rewrite attr_len_players. simpl.
  apply for_each_Raise. intros i t1 e'.
  apply for_each_Raise. intros j t2 e''.
  intros [H|(? & _ & H)]%bind_Raise;
    [by apply getitem2_Raise in H|by apply setitem3_Raise in H].
Qed.

Lemma copy_repetition_Ok index result_matrix t0 t :
  copy_repetition self index result_matrix t0 = Ok t →
  shaped N N R t0 →
  shaped N N R t
  ∧ (∀ i j, i < N → j < N → is_Some (at2 result_matrix i j))
  ∧ (N = 0 ∨ index < R).
Proof.
  unfold copy_repetition. rewrite attr_len_players. simpl.
  intros Hrun Ht0.
  destruct (for_each_Ok_elem (shaped N N R) _ _ _ _ Hrun Ht0) as [Ht Hall].
  { intros i t1 t2 _ Ht1 Hinner.
    apply (for_each_Ok_elem (shaped N N R) _ _ _ _ Hinner Ht1).
    intros j t3 t4 _ Ht3 (v & _ & Hset)%bind_Ok.
    by eapply shaped_setitem3. }
  assert (Hcell : ∀ i j, i < N → j < N →
            is_Some (at2 result_matrix i j) ∧ index < R).
  { intros i j Hi Hj.
    destruct (Hall i) as (t1 & t2 & Ht1 & Hinner).
    { apply elem_of_seq. lia. }
    destruct (for_each_Ok_elem (shaped N N R) _ _ _ _ Hinner Ht1)
      as [_ Hall2].
    { intros j' t3 t4 _ Ht3 (v & _ & Hset)%bind_Ok.
      by eapply shaped_setitem3. }
    destruct (Hall2 j) as (t3 & t4 & Ht3 & (v & Hv & Hset)%bind_Ok).
    { apply elem_of_seq. lia. }
    apply getitem2_Ok in Hv. split; [by exists v|].
    by eapply (setitem3_bound N N R t3 i j). }
  split; [done|]. split; [intros; by apply Hcell|].
  destruct (decide (N = 0)) as [|HN]; [by left|right].
  apply (Hcell 0 0); lia.
Qed.

(** *** One channel *)

Lemma at3_lookup (raw : list (list (list num))) r result_matrix i j :
  raw !! r = Some result_matrix → at3 raw r i j = at2 result_matrix i j.
Proof. intros Hr. unfold at3, at2. by rewrite Hr. Qed.

Lemma at3_take (raw : list (list (list num))) n r i j :
  at3 (take n raw) r i j = if decide (r < n) then at3 raw r i j else None.
Proof.
  unfold at3, at2. rewrite lookup_take. by case_decide.
Qed.

Lemma elem_of_enumerate {A : Type} (l : list A) k x :
  (k, x) ∈ enumerate l ↔ l !! k = Some x.
Proof.
  induction l as [|y l IH] using rev_ind.
  - split; [by intros ?%elem_of_nil|done].
  - rewrite enumerate_snoc, elem_of_app, IH, list_elem_of_singleton.
    rewrite lookup_snoc_Some. split.
    + intros [Hk|[= -> ->]]; [left|by right].
      split; [by eapply lookup_lt_Some|done].
    + intros [[_ Hk]|[-> ->]]; [by left|by right].
Qed.

Lemma fits_spec (raw : list (list (list num))) :
  fits N R raw = true ↔
  (N = 0 ∨ length raw ≤ R)
  ∧ ∀ r result_matrix, raw !! r = Some result_matrix →
      ∀ i j, i < N → j < N → is_Some (at2 result_matrix i j).
Proof.
  unfold fits. rewrite andb_true_iff, bool_decide_eq_true.
  rewrite <-Is_true_true, forallb_True, Forall_lookup.
  apply and_iff_compat_l. split.
  - intros Hall r rm Hr i j Hi Hj. specialize (Hall r rm Hr).
    rewrite forallb_True, Forall_forall in Hall.
    specialize (Hall i). rewrite forallb_True, Forall_forall in Hall.
    eapply bool_decide_unpack, Hall; apply elem_of_seq; lia.
  - intros Hall r rm Hr. rewrite forallb_True, Forall_forall.
    intros i Hi%elem_of_seq. rewrite forallb_True, Forall_forall.
    intros j Hj%elem_of_seq. apply bool_decide_pack.
    apply (Hall r rm Hr); lia.
Qed.

Lemma reshape_channel_fits result_type raw results :
  fits N R raw = true →
  reshape_channel self result_type raw results =
    Ok (match reshaped N R raw with
        | Some t => <[result_type:=t]> results
        | None => results
        end).
Proof.
  intros [Hlen Hentries]%fits_spec. unfold reshape_channel.
  rewrite null_results_matrix_canonical. simpl.
  lazymatch goal with
  | |- context [for_each (enumerate raw) ?body ?s] =>
      destruct (for_enumerate_total
        (λ k st, st.1 = canonical N R (take k raw)
                 ∧ st.2 = match k with
                          | 0 => results
                          | S _ => <[result_type:=st.1]> results
                          end)
        (λ st, st.2 = match reshaped N R raw with
                      | Some t => <[result_type:=t]> results
                      | None => results
                      end)
        raw body s) as (st & -> & Hst); [done| | |by simpl; rewrite Hst]
  end.
  - intros k rm [t res] Hk [Ht Hres]; simpl in *. subst t.
    destruct (copy_repetition_total k rm (canonical N R (take k raw)))
      as (t & -> & Hshape & Hat).
    { apply shaped_canonical. }
    { apply lookup_lt_Some in Hk. lia. }
    { by apply (Hentries k). }
    simpl. eexists. split; [done|]. simpl.
    assert (t = canonical N R (take (S k) raw)) as ->.
    { apply (tensor_ext N N R); [done|apply shaped_canonical|].
      intros i j r Hi Hj Hr. rewrite Hat, !at3_canonical, !at3_take by done.
      destruct (decide (r = k)) as [->|Hne].
      - rewrite decide_True, decide_True by lia.
        rewrite (at3_lookup _ _ _ _ _ Hk).
        by destruct (Hentries k rm Hk i j Hi Hj) as [v ->].
      - rewrite decide_False by tauto.
        repeat case_decide; try done; lia. }
    split; [done|]. destruct k; subst res; [done|].
    by rewrite insert_insert_eq.
  - intros [t res] [Ht Hres]; simpl in *. subst t.
    rewrite take_ge in Hres by done.
    destruct raw; [done|]. by subst res.
Qed.

Lemma reshape_channel_Raise result_type raw results e :
  reshape_channel self result_type raw results = Raise e → e = IndexError.
Proof.
  unfold reshape_channel. rewrite null_results_matrix_canonical. simpl.
  intros [H|(st & _ & [=])]%bind_Raise. revert H.
  apply for_each_Raise. intros [k rm] st e'.
  intros [H|(t & _ & [=])]%bind_Raise.
  by eapply copy_repetition_Raise.
Qed.

Lemma reshape_channel_Ok result_type raw results results' :
  reshape_channel self result_type raw results = Ok results' →
  fits N R raw = true.
Proof.
  unfold reshape_channel. rewrite null_results_matrix_canonical. simpl.
  intros (st & Hrun & _)%bind_Ok.
  destruct (for_each_Ok_elem (λ st, shaped N N R st.1) _ _ _ _ Hrun)
    as [_ Hall].
  { apply shaped_canonical. }
  { intros [k rm] st1 st2 _ Hst1 (t & Hcopy & [= <-])%bind_Ok. simpl.
    by eapply copy_repetition_Ok. }
  assert (Hrep : ∀ k rm, raw !! k = Some rm →
            (∀ i j, i < N → j < N → is_Some (at2 rm i j))
            ∧ (N = 0 ∨ k < R)).
  { intros k rm Hk.
    destruct (Hall (k, rm)) as (st1 & st2 & Hst1 & (t & Hcopy & _)%bind_Ok).
    { by apply elem_of_enumerate. }
    by eapply copy_repetition_Ok. }
  apply fits_spec. split; [|intros r rm Hr; by apply (Hrep r rm)].
  destruct raw as [|rm0 raw0] using rev_ind; [right; simpl; lia|].
  destruct (Hrep (length raw0) rm0) as [_ [?|?]].
  { by rewrite lookup_app_r, Nat.sub_diag. }
  - by left.
  - right. rewrite length_app. simpl. lia.
Qed.

Lemma reshape_channel_unfit result_type raw results :
  fits N R raw = false →
  reshape_channel self result_type raw results = Raise IndexError.
Proof.
  intros Hfit.
  destruct (reshape_channel self result_type raw results) as [res|e] eqn:Hrun.
  - apply reshape_channel_Ok in Hrun. congruence.
  - by apply reshape_channel_Raise in Hrun as ->.
Qed.

(** *** The whole bundle *)

Lemma results_spec (outcome : gmap string (list (list (list num)))) :
  (map_Forall (λ _ raw, fits N R raw = true) outcome →
     _results self outcome = Ok (omap (reshaped N R) outcome))
  ∧ (¬ map_Forall (λ _ raw, fits N R raw = true) outcome →
     _results self outcome = Raise IndexError).
Proof.
  unfold _results.
  apply (map_fold_weak_ind (λ r m,
    (map_Forall (λ _ raw, fits N R raw = true) m →
       r = Ok (omap (reshaped N R) m))
    ∧ (¬ map_Forall (λ _ raw, fits N R raw = true) m →
       r = Raise IndexError))).
  - split; [by rewrite omap_empty|].
    intros []. apply map_Forall_empty.
  - intros ch raw m r Hch [IHfit IHunfit].
    rewrite map_Forall_insert by done. split.
    + intros [Hraw Hm]. rewrite (IHfit Hm). simpl.
      rewrite reshape_channel_fits by done. f_equal.
      rewrite omap_insert. destruct (reshaped N R raw); [done|].
      rewrite delete_id; [done|]. by rewrite lookup_omap, Hch.
    + intros Hnot.
      destruct (decide (map_Forall (λ _ raw, fits N R raw = true) m))
        as [Hm|Hm]; [|by rewrite (IHunfit Hm)].
      rewrite (IHfit Hm). simpl. apply reshape_channel_unfit.
      destruct (fits N R raw); [|done]. by destruct Hnot.
Qed.

End reshaper.

(** ** Claims about the reshaper *)

Section reshaper_claims.
Context {num : Type} `{!Numeric num}.
Implicit Types (self : gmap string (value num))
               (outcome : gmap string (list (list (list num)))).

Lemma configured_configuration players T R outcome :
  configured (configuration players T R outcome) players T R.
Proof. by split_and!. Qed.

Lemma consistent_fits (players : list string) R
    (raw : list (list (list num))) :
  consistent (length players) R raw → fits (length players) R raw = true.
Proof.
  intros [Hlen Hrows]. apply fits_spec. split; [right; lia|].
  intros r rm Hr i j Hi Hj. destruct (Hrows r rm Hr) as [Hrm Hcols].
  unfold at2. destruct (lookup_lt_is_Some_2 rm i) as [row Hrow]; [lia|].
  rewrite Hrow. apply lookup_lt_is_Some_2.
  rewrite (Hcols i row Hrow). done.
Qed.

(** What [_results] returns, when it returns. *)
Lemma results_Ok self players T R outcome results :
  configured self players T R →
  _results self outcome = Ok results →
  results = omap (reshaped (length players) R) outcome
  ∧ map_Forall (λ _ raw, fits (length players) R raw = true) outcome.
Proof.
  intros Hcfg Hrun.
  destruct (results_spec self players T R Hcfg outcome) as [Hfit Hunfit].
  destruct (decide (map_Forall
    (λ _ raw, fits (length players) R raw = true) outcome)) as [Hall|Hnot].
  - rewrite (Hfit Hall) in Hrun. by injection Hrun as <-.
  - by rewrite (Hunfit Hnot) in Hrun.
Qed.

(** C1: for a bundle whose channels all have [R] repetitions of [N] by [N]
    values, [_results] returns a dictionary in which every channel of the
    bundle is bound to a tensor [canonical] with
    [canonical[i][j][r] == raw[r][i][j]] for all [i, j < N] and [r < R]:
    the very value, relocated. *)
Theorem results_reindexes self players T R outcome :
  configured self players T R →
  (∀ channel raw, outcome !! channel = Some raw →
     consistent (length players) R raw) →
  ∃ results,
    _results self outcome = Ok results
    ∧ ∀ channel raw i j r,
        outcome !! channel = Some raw →
        i < length players → j < length players → r < R →
        ∃ canonical x,
          results !! channel = Some canonical
          ∧ at3 raw r i j = Some x
          ∧ at3 canonical i j r = Some x.
Proof.
  intros Hcfg Hvalid.
  destruct (results_spec self players T R Hcfg outcome) as [Hfit _].
  eexists. split.
  { apply Hfit. intros ch raw Hraw. by eapply consistent_fits, Hvalid. }
  intros ch raw i j r Hraw Hi Hj Hr.
  destruct (shaped_at3 _ _ _ raw r i j (Hvalid ch raw Hraw)) as [x Hx];
    [done..|].
  exists (canonical (length players) R raw), x.
  rewrite lookup_omap, Hraw. simpl. split_and!; [|done|].
  - destruct raw; [|done]. by destruct r.
  - by rewrite (at3_canonical players R) by done; rewrite Hx.
Qed.

(** A channel bound to an empty list of repetitions is reshaped like a
    channel that is not there. *)
Lemma results_delete_empty self players T R outcome channel :
  configured self players T R →
  outcome !! channel = Some [] →
  _results self outcome = _results self (delete channel outcome)
  ∧ ∀ results, _results self outcome = Ok results →
      results !! channel = None.
Proof.
  intros Hcfg Hempty.
  destruct (results_spec self players T R Hcfg outcome) as [Hfit Hunfit].
  destruct (results_spec self players T R Hcfg (delete channel outcome))
    as [Hfit' Hunfit'].
  assert (Hiff : map_Forall
      (λ _ raw, fits (length players) R raw = true) outcome
    ↔ map_Forall (λ _ raw, fits (length players) R raw = true)
        (delete channel outcome)).
  { split; [apply map_Forall_delete|].
    intros Hall ch raw Hraw. destruct (decide (ch = channel)) as [->|Hne].
    - rewrite Hempty in Hraw. injection Hraw as <-.
      apply fits_spec. split; [right; simpl; lia|].
      by intros [|?] ?.
    - apply (Hall ch). by rewrite lookup_delete_ne. }
  assert (Habsent : omap (reshaped (length players) R) outcome !! channel
                    = None).
  { by rewrite lookup_omap, Hempty. }
  split.
  - destruct (decide (map_Forall
      (λ _ raw, fits (length players) R raw = true) outcome)) as [Hall|Hnot].
    + rewrite (Hfit Hall), (Hfit' (proj1 Hiff Hall)), omap_delete.
      by rewrite delete_id.
    + rewrite (Hunfit Hnot), Hunfit'; [done|]. by rewrite <-Hiff.
  - intros results Hrun.
    by destruct (results_Ok self players T R outcome results Hcfg Hrun)
      as [-> _].
Qed.

End reshaper_claims.

(** ** The payoff differences *)

Lemma fmap_const_seq {A : Type} (x : A) (a n : nat) :
  (λ _, x) <$> seq a n = replicate n x.
Proof. revert a. induction n as [|n IH]; intros a; simpl; [done|]. by rewrite IH. Qed.

Lemma fmap_const_range {A : Type} (x : A) (n : nat) :
  (λ _, x) <$> range n = replicate n x.
Proof. apply fmap_const_seq. Qed.

Lemma length_concat_range {A : Type} (f : nat → list A) (R n : nat) :
  (∀ j, length (f j) = R) →
  length (concat (f <$> range n)) = n * R.
Proof.
  intros Hf. induction n as [|n IH]; [done|].
  rewrite range_S, fmap_app, concat_app, length_app, IH. simpl.
  rewrite length_app, Hf. simpl. lia.
Qed.

Lemma lookup_concat_range {A : Type} (f : nat → list A) (R n j r : nat) :
  (∀ j, length (f j) = R) → j < n → r < R →
  concat (f <$> range n) !! (j * R + r) = f j !! r.
Proof.
  intros Hf Hj Hr. induction n as [|n IH]; [lia|].
  rewrite range_S, fmap_app, concat_app. simpl. rewrite app_nil_r.
  destruct (decide (j = n)) as [->|Hne].
  - rewrite lookup_app_r; rewrite (length_concat_range f R) by done; [|lia].
    f_equal. lia.
  - rewrite lookup_app_l; [apply IH; lia|].
    rewrite (length_concat_range f R) by done. nia.
Qed.

Section matrices.
Context {A : Type}.
Implicit Types (m : list (list A)).

Lemma mshaped_at2 N M m i j :
  mshaped N M m → i < N → j < M → is_Some (at2 m i j).
Proof.
  intros [Hlen Hrows] Hi Hj. unfold at2.
  destruct (lookup_lt_is_Some_2 m i) as [row Hrow]; [lia|].
  rewrite Hrow. apply lookup_lt_is_Some_2. by rewrite (Hrows i row Hrow).
Qed.

Lemma setitem2_total N M m i j v :
  mshaped N M m → i < N → j < M → ∃ m', setitem2 m i j v = Ok m'.
Proof.
  intros [Hlen Hrows] Hi Hj.
  destruct (lookup_lt_is_Some_2 m i) as [row Hrow]; [lia|].
  eexists. apply setitem2_Ok. exists row.
  split_and!; [done| |done]. by rewrite (Hrows i row Hrow).
Qed.

Lemma mshaped_setitem2 N M m i j v m' :
  setitem2 m i j v = Ok m' → mshaped N M m → mshaped N M m'.
Proof.
  intros (row & Hrow & Hj & ->)%setitem2_Ok [Hlen Hrows].
  split; [by rewrite length_insert|].
  intros i' row' [(-> & <- & _)|[_ H]]%list_lookup_insert_Some;
    [|by apply (Hrows i')].
  rewrite length_insert. by apply (Hrows i').
Qed.

Lemma mshaped_replicate N M (x : A) : mshaped N M (replicate N (replicate M x)).
Proof.
  split; [by rewrite length_replicate|].
  intros i row [-> _]%lookup_replicate. by rewrite length_replicate.
Qed.

Lemma at2_replicate N M (x : A) i j :
  i < N → j < M → at2 (replicate N (replicate M x)) i j = Some x.
Proof.
  intros Hi Hj. unfold at2.
  rewrite lookup_replicate_2 by done. by rewrite lookup_replicate_2.
Qed.

End matrices.

Section payoff_differences.
Context {num : Type} `{!Numeric num}.
Variables (self : gmap string (value num)) (players : list string) (T R : nat).
Hypothesis Hcfg : configured self players T R.
Variable payoff : list (list (list num)).
Hypothesis Hshape : shaped (length players) (length players) R payoff.
Hypothesis HT : 0 < T.

Local Abbreviation N := (length players).

Lemma payoff_diff_Ok i j r :
  i < N → j < N → r < R →
  payoff_diff self payoff i j r = Ok (per_turn_diff T payoff i j r).
Proof.
  intros Hi Hj Hr. unfold payoff_diff, per_turn_diff.
  destruct (shaped_at3 N N R payoff i j r) as [a Ha]; [done..|].
  destruct (shaped_at3 N N R payoff j i r) as [b Hb]; [done..|].
  rewrite Ha, Hb. apply getitem3_Ok in Ha as ->. apply getitem3_Ok in Hb as ->.
  simpl. rewrite (attr_int_turns self players T R Hcfg). simpl.
  unfold truediv. rewrite decide_False by lia. done.
Qed.

Lemma length_pair_diffs i j : length (pair_diffs T R payoff i j) = R.
Proof. unfold pair_diffs, range. by rewrite length_fmap, length_seq. Qed.

Lemma lookup_pair_diffs i j r :
  r < R → pair_diffs T R payoff i j !! r = Some (per_turn_diff T payoff i j r).
Proof.
  intros Hr. unfold pair_diffs, range.
  by rewrite list_lookup_fmap, lookup_seq_lt.
Qed.

(** The innermost loop of [_payoff_diffs_matrix]. *)
Lemma collect_pair_diffs i j :
  i < N → j < N →
  for_each (range R) (λ repetition diffs,
    diff ← payoff_diff self payoff i j repetition;
    Ok (diffs ++ [diff])) [] = Ok (pair_diffs T R payoff i j).
Proof.
  intros Hi Hj.
  destruct (for_range_total
    (λ k diffs, diffs = (λ r, per_turn_diff T payoff i j r) <$> range k)
    (λ diffs, diffs = pair_diffs T R payoff i j) R
    (λ repetition diffs,
       diff ← payoff_diff self payoff i j repetition;
       Ok (diffs ++ [diff])) []) as (diffs & -> & ->); [done| |done|done].
  intros k diffs Hk ->. rewrite payoff_diff_Ok by done.
  eexists. split; [done|]. by rewrite range_S, fmap_app.
Qed.

Lemma payoff_diffs_matrix_spec :
  ∃ m, _payoff_diffs_matrix self payoff = Ok m
       ∧ mshaped N N m
       ∧ ∀ i j, i < N → j < N →
           at2 m i j = Some (mean (pair_diffs T R payoff i j)).
Proof.
  unfold _payoff_diffs_matrix.
  rewrite (attr_int_nplayers self players T R Hcfg).
  rewrite (attr_range_nplayers self players T R Hcfg).
  rewrite (attr_range_repetitions self players T R Hcfg). simpl.
  apply (for_range_total
    (λ p m, mshaped N N m ∧ ∀ i j, i < N → j < N → at2 m i j =
       Some (if decide (i < p)
             then mean (pair_diffs T R payoff i j) else zero))).
  - split; [apply mshaped_replicate|]. intros i j Hi Hj.
    by rewrite at2_replicate.
  - intros p m1 Hp [Hm1 Hat1].
    apply (for_range_total
      (λ c m, mshaped N N m ∧ ∀ i j, i < N → j < N → at2 m i j =
         Some (if decide (i < p ∨ i = p ∧ j < c)
               then mean (pair_diffs T R payoff i j) else zero))).
    + split; [done|]. intros i j Hi Hj. rewrite Hat1 by done.
      repeat case_decide; try done; lia.
    + intros c m2 Hc [Hm2 Hat2]. rewrite collect_pair_diffs by done. simpl.
      destruct (setitem2_total N N m2 p c
        (mean (pair_diffs T R payoff p c))) as [m3 Hset]; [done..|].
      exists m3. split; [done|]. split; [by eapply mshaped_setitem2|].
      intros i j Hi Hj. rewrite (at2_setitem2 _ _ _ _ _ _ _ Hset).
      rewrite Hat2 by done.
      repeat case_decide; try done; destruct_and?; subst; try done; lia.
    + intros m2 [Hm2 Hat2]. split; [done|]. intros i j Hi Hj.
      rewrite Hat2 by done. repeat case_decide; try done; lia.
  - intros m [Hm Hat]. split; [done|]. intros i j Hi Hj.
    rewrite Hat by done. by rewrite decide_True.
Qed.

Lemma score_diffs_spec :
  _score_diffs self payoff = Ok (player_diffs T R N payoff <$> range N).
Proof.
  unfold _score_diffs.
  rewrite (attr_range_nplayers self players T R Hcfg).
  rewrite (attr_range_repetitions self players T R Hcfg). simpl.
  rewrite fmap_const_range.
  lazymatch goal with
  | |- for_each (range N) ?body ?s = _ =>
      destruct (for_range_total
        (λ p diffs, diffs = (player_diffs T R N payoff <$> range p)
                            ++ replicate (N - p) [])
        (λ diffs, diffs = player_diffs T R N payoff <$> range N)
        N body s) as (diffs & -> & ->); [| | |done]
  end.
  - by rewrite Nat.sub_0_r.
  - intros p diffs1 Hp ->.
    apply (for_range_total
      (λ c diffs, diffs =
         (player_diffs T R N payoff <$> range p)
         ++ concat ((λ j, pair_diffs T R payoff p j) <$> range c)
            :: replicate (N - S p) [])).
    + replace (N - p) with (S (N - S p)) by lia. done.
    + intros c diffs2 Hc ->.
      apply (for_range_total
        (λ k diffs, diffs =
           (player_diffs T R N payoff <$> range p)
           ++ (concat ((λ j, pair_diffs T R payoff p j) <$> range c)
               ++ ((λ r, per_turn_diff T payoff p c r) <$> range k))
              :: replicate (N - S p) [])).
      * by rewrite app_nil_r.
      * intros k diffs3 Hk ->. rewrite payoff_diff_Ok by done.
        assert (Hlen : length (player_diffs T R N payoff <$> range p) = p).
        { unfold range. by rewrite length_fmap, length_seq. }
        eexists. split.
        { unfold bind at 1. unfold getitem.
          rewrite lookup_app_r by lia. by rewrite Hlen, Nat.sub_diag. }
        rewrite range_S, fmap_app, app_assoc.
        rewrite insert_app_r_alt by lia. by rewrite Hlen, Nat.sub_diag.
      * intros diffs3 ->.
        rewrite range_S, fmap_app, concat_app. simpl. by rewrite app_nil_r.
    + intros diffs2 ->. rewrite range_S, fmap_app. simpl.
      by rewrite <-app_assoc.
  - intros diffs ->. by rewrite Nat.sub_diag, app_nil_r.
Qed.

End payoff_differences.

(** ** Claims about the payoff differences *)

Section payoff_claims.
Context {num : Type} `{!Numeric num}.
Implicit Types (self : gmap string (value num))
               (outcome : gmap string (list (list (list num)))).

(** Every tensor bound by [_results] is the canonical tensor of a channel
    with at least one repetition. *)
Lemma results_lookup self players T R outcome results channel t :
  configured self players T R →
  _results self outcome = Ok results →
  results !! channel = Some t →
  ∃ raw, outcome !! channel = Some raw ∧ raw ≠ []
         ∧ t = canonical (length players) R raw.
Proof.
  intros Hcfg Hrun Ht.
  destruct (results_Ok self players T R outcome results Hcfg Hrun) as [-> _].
  apply lookup_omap_Some in Ht as (raw & Hraw & Hch).
  exists raw. destruct raw; [done|]. by injection Hraw as <-.
Qed.

Lemma results_shaped self players T R outcome results channel t :
  configured self players T R →
  _results self outcome = Ok results →
  results !! channel = Some t →
  shaped (length players) (length players) R t.
Proof.
  intros Hcfg Hrun Ht.
  destruct (results_lookup _ _ _ _ _ _ _ _ Hcfg Hrun Ht) as (raw & _ & _ & ->).
  apply shaped_canonical.
Qed.

Lemma per_turn_diff_entries T R N (payoff : list (list (list num))) i j r :
  shaped N N R payoff → i < N → j < N → r < R →
  ∃ a b, at3 payoff i j r = Some a ∧ at3 payoff j i r = Some b
         ∧ per_turn_diff T payoff i j r = div (sub a b) (float T).
Proof.
  intros Hshape Hi Hj Hr. unfold per_turn_diff.
  destruct (shaped_at3 N N R payoff i j r) as [a Ha]; [done..|].
  destruct (shaped_at3 N N R payoff j i r) as [b Hb]; [done..|].
  exists a, b. by rewrite Ha, Hb.
Qed.

(** C3: with the payoff channel reshaped and [T > 0],
    [_payoff_diffs_matrix] returns a matrix whose entry for every ordered
    pair [(i, j)] is the mean of the [R] values
    [(payoff[i][j][r] - payoff[j][i][r]) / T], [r] running over the
    repetitions. *)
Theorem payoff_diffs_matrix_mean self players T R outcome results payoff :
  configured self players T R →
  _results self outcome = Ok results →
  results !! "payoff" = Some payoff →
  0 < T →
  ∃ m, _payoff_diffs_matrix self payoff = Ok m
       ∧ ∀ i j, i < length players → j < length players →
           ∃ diffs,
             at2 m i j = Some (mean diffs)
             ∧ length diffs = R
             ∧ ∀ r, r < R →
                 ∃ a b, at3 payoff i j r = Some a
                        ∧ at3 payoff j i r = Some b
                        ∧ diffs !! r = Some (div (sub a b) (float T)).
Proof.
  intros Hcfg Hrun Hpayoff HT.
  pose proof (results_shaped _ _ _ _ _ _ _ _ Hcfg Hrun Hpayoff) as Hshape.
  destruct (payoff_diffs_matrix_spec self players T R Hcfg payoff Hshape HT)
    as (m & Hm & _ & Hat).
  exists m. split; [done|]. intros i j Hi Hj.
  exists (pair_diffs T R payoff i j).
  split; [by apply Hat|]. split; [apply length_pair_diffs|].
  intros r Hr.
  destruct (per_turn_diff_entries T R _ payoff i j r Hshape)
    as (a & b & Ha & Hb & Hd); [done..|].
  exists a, b. rewrite lookup_pair_diffs by done. by rewrite Hd.
Qed.

Lemma per_turn_diff_neg `{!ExactArith num} T
    (payoff : list (list (list num))) i j r :
  per_turn_diff T payoff j i r = neg (per_turn_diff T payoff i j r).
Proof.
  unfold per_turn_diff.
  by rewrite (sub_antisym (default zero (at3 payoff j i r))), div_neg.
Qed.

Lemma pair_diffs_neg `{!ExactArith num} T R
    (payoff : list (list (list num))) i j :
  pair_diffs T R payoff j i = neg <$> pair_diffs T R payoff i j.
Proof.
  unfold pair_diffs. rewrite <-list_fmap_compose.
  apply list_fmap_ext. intros _ r _. simpl. apply per_turn_diff_neg.
Qed.

(** C4: under exact arithmetic the matrix [_payoff_diffs_matrix] returns
    is antisymmetric: its entry at [(i, j)] is the negation of its entry
    at [(j, i)], exactly. *)
Theorem payoff_diffs_matrix_antisymmetric `{!ExactArith num}
    self players T R outcome results payoff :
  configured self players T R →
  _results self outcome = Ok results →
  results !! "payoff" = Some payoff →
  0 < T →
  ∃ m, _payoff_diffs_matrix self payoff = Ok m
       ∧ ∀ i j, i < length players → j < length players →
           ∃ x y, at2 m i j = Some x ∧ at2 m j i = Some y ∧ x = neg y.
Proof.
  intros Hcfg Hrun Hpayoff HT.
  pose proof (results_shaped _ _ _ _ _ _ _ _ Hcfg Hrun Hpayoff) as Hshape.
  destruct (payoff_diffs_matrix_spec self players T R Hcfg payoff Hshape HT)
    as (m & Hm & _ & Hat).
  exists m. split; [done|]. intros i j Hi Hj.
  exists (mean (pair_diffs T R payoff i j)),
         (mean (pair_diffs T R payoff j i)).
  split_and!; [by apply Hat..|].
  by rewrite (pair_diffs_neg T R payoff j i), mean_neg.
Qed.

(** C5: with the payoff channel reshaped and [T > 0], [_score_diffs]
    returns one row per player; the row of player [i] has [N * R] values,
    the value at position [j * R + r] is
    [(payoff[i][j][r] - payoff[j][i][r]) / T] (opponent-major,
    repetition-minor, not averaged), and under exact arithmetic the values
    of the self-pairing [j = i] are [0]. *)
Theorem score_diffs_flattened `{!ExactArith num}
    self players T R outcome results payoff :
  configured self players T R →
  _results self outcome = Ok results →
  results !! "payoff" = Some payoff →
  0 < T →
  ∃ diffs, _score_diffs self payoff = Ok diffs
    ∧ length diffs = length players
    ∧ ∀ i, i < length players →
        ∃ row, diffs !! i = Some row
          ∧ length row = length players * R
          ∧ (∀ j r, j < length players → r < R →
               ∃ a b, at3 payoff i j r = Some a
                      ∧ at3 payoff j i r = Some b
                      ∧ row !! (j * R + r) = Some (div (sub a b) (float T)))
          ∧ (∀ r, r < R → row !! (i * R + r) = Some zero).
Proof.
  intros Hcfg Hrun Hpayoff HT.
  pose proof (results_shaped _ _ _ _ _ _ _ _ Hcfg Hrun Hpayoff) as Hshape.
  rewrite (score_diffs_spec self players T R Hcfg payoff Hshape HT).
  eexists. split; [done|].
  split; [unfold range; by rewrite length_fmap, length_seq|].
  intros i Hi. exists (player_diffs T R (length players) payoff i).
  split; [unfold range; by rewrite list_lookup_fmap, lookup_seq_lt|].
  assert (Hlookup : ∀ j r, j < length players → r < R →
    player_diffs T R (length players) payoff i !! (j * R + r)
    = Some (per_turn_diff T payoff i j r)).
  { intros j r Hj Hr. unfold player_diffs.
    rewrite (lookup_concat_range _ R) by
      (done || intros; unfold pair_diffs, range;
               by rewrite length_fmap, length_seq).
    unfold pair_diffs, range. by rewrite list_lookup_fmap, lookup_seq_lt. }
  split_and!.
  - unfold player_diffs. apply length_concat_range.
    intros j. unfold pair_diffs, range. by rewrite length_fmap, length_seq.
  - intros j r Hj Hr.
    destruct (per_turn_diff_entries T R _ payoff i j r Hshape)
      as (a & b & Ha & Hb & Hd); [done..|].
    exists a, b. rewrite Hlookup by done. by rewrite Hd.
  - intros r Hr. rewrite Hlookup by done. unfold per_turn_diff.
    by rewrite sub_diag, div_zero.
Qed.

End payoff_claims.

(** ** The constructor *)

Section constructor.
Context {num : Type} `{!Numeric num}
        `{!PayoffModule num} `{!CooperationModule num}.
Implicit Types (self obj : gmap string (value num))
               (outcome results : gmap string (list (list (list num)))).

Lemma init_payoff_frame self players T R payoff self' a :
  init_payoff self players T R payoff = Ok self' →
  a ∉ payoff_attributes →
  self' !! a = self !! a.
Proof.
  unfold init_payoff. intros Hrun Ha. invert_binds Hrun.
  injection Hrun as <-. split_not_elem Ha.
  by rewrite !lookup_insert_ne by done.
Qed.

Lemma init_cooperation_frame self players T R coop self' a :
  init_cooperation self players T R coop = Ok self' →
  a ∉ cooperation_attributes →
  self' !! a = self !! a.
Proof.
  unfold init_cooperation. intros Hrun Ha. invert_binds Hrun.
  injection Hrun as <-. split_not_elem Ha.
  by rewrite !lookup_insert_ne by done.
Qed.

(** The three stages of the constructor. *)
Lemma init_Ok players T R outcome with_morality obj :
  __init__ players T R outcome with_morality = Ok obj →
  ∃ results self1,
    _results (configuration players T R outcome) outcome = Ok results
    ∧ match results !! "payoff" with
      | Some payoff =>
          init_payoff (blank_object players T R outcome results)
                      players T R payoff
      | None => Ok (blank_object players T R outcome results)
      end = Ok self1
    ∧ match results !! "cooperation" with
      | Some coop =>
          if with_morality
          then init_cooperation self1 players T R coop
          else Ok self1
      | None => Ok self1
      end = Ok obj.
Proof.
  unfold __init__. intros Hrun. invert_binds Hrun. injection Hrun as <-.
  eauto.
Qed.

Lemma blank_object_lookup players T R outcome results a :
  a ∈ none_attributes →
  blank_object players T R outcome results !! a = Some VNone.
Proof.
  unfold none_attributes. rewrite !elem_of_cons, elem_of_nil.
  intros H. destruct_or?; subst; done.
Qed.

Lemma blank_object_missing players T R outcome results a :
  a ∈ ["payoff_stddevs"; "payoff_diffs_matrix"; "score_diffs"] →
  blank_object players T R outcome results !! a = None.
Proof.
  rewrite !elem_of_cons, elem_of_nil.
  intros H. destruct_or?; subst; done.
Qed.

(** A channel without repetitions is not reshaped. *)
Lemma results_no_channel self players T R outcome results channel :
  configured self players T R →
  _results self outcome = Ok results →
  (∀ raw, outcome !! channel = Some raw → raw = []) →
  results !! channel = None.
Proof.
  intros Hcfg Hrun Hempty.
  destruct (results_Ok self players T R outcome results Hcfg Hrun) as [-> _].
  rewrite lookup_omap. destruct (outcome !! channel) as [raw|]; [|done].
  by rewrite (Hempty raw).
Qed.

End constructor.

(** ** Claims about the constructor *)

Section constructor_claims.
Context {num : Type} `{!Numeric num}
        `{!PayoffModule num} `{!CooperationModule num}.
Implicit Types (self obj : gmap string (value num))
               (outcome results : gmap string (list (list (list num)))).

(** An engine built without a reshaped payoff channel: every attribute
    outside the cooperation block is as in the blank object. *)
Lemma init_without_payoff players T R outcome with_morality obj a :
  __init__ players T R outcome with_morality = Ok obj →
  (∀ raw, outcome !! "payoff" = Some raw → raw = []) →
  a ∉ cooperation_attributes →
  ∃ results, obj !! a = blank_object players T R outcome results !! a.
Proof.
  intros (results & self1 & Hres & Hpay & Hcoop)%init_Ok Hempty Ha.
  exists results.
  rewrite (results_no_channel _ players T R outcome results "payoff"
             (configured_configuration players T R outcome) Hres Hempty)
    in Hpay.
  injection Hpay as <-.
  destruct (results !! "cooperation") as [coop|]; [|by injection Hcoop as <-].
  destruct with_morality; [|by injection Hcoop as <-].
  by eapply init_cooperation_frame.
Qed.

(** C7: on an engine built from a bundle whose payoff channel is absent
    (or carries no repetition), [csv()] raises a [TypeError]: it returns
    no text at all. *)
Theorem csv_without_payoff_raises players T R outcome with_morality obj :
  __init__ players T R outcome with_morality = Ok obj →
  (∀ raw, outcome !! "payoff" = Some raw → raw = []) →
  csv obj = Raise TypeError.
Proof.
  intros Hinit Hempty.
  destruct (init_without_payoff players T R outcome with_morality obj
              "ranked_names" Hinit Hempty) as [results Hattr].
  { compute_done. }
  unfold csv, getattr. rewrite Hattr.
  by rewrite blank_object_lookup by compute_done.
Qed.

(** C8: on an engine built from a bundle whose payoff channel is absent,
    the payoff attributes listed in [none_attributes] read [None], but
    [payoff_stddevs], [payoff_diffs_matrix] and [score_diffs] do not exist:
    reading them raises an [AttributeError]. *)
Theorem payoff_attributes_without_payoff
    players T R outcome with_morality obj :
  __init__ players T R outcome with_morality = Ok obj →
  (∀ raw, outcome !! "payoff" = Some raw → raw = []) →
  (∀ a, a ∈ ["scores"; "normalised_scores"; "ranking"; "ranked_names";
             "payoff_matrix"; "wins"] → getattr obj a = Ok VNone)
  ∧ (∀ a, a ∈ ["payoff_stddevs"; "payoff_diffs_matrix"; "score_diffs"] →
       getattr obj a = Raise AttributeError).
Proof.
  intros Hinit Hempty. split; intros a Ha.
  - destruct (init_without_payoff players T R outcome with_morality obj a
                Hinit Hempty) as [results Hattr].
    { clear Hinit. by_attribute_cases Ha. }
    unfold getattr. rewrite Hattr, blank_object_lookup; [done|].
    clear Hinit Hattr. by_attribute_cases Ha.
  - destruct (init_without_payoff players T R outcome with_morality obj a
                Hinit Hempty) as [results Hattr].
    { clear Hinit. by_attribute_cases Ha. }
    unfold getattr. by rewrite Hattr, blank_object_missing.
Qed.

(** The payoff block leaves the cooperation attributes at [None]. *)
Lemma payoff_block_keeps_cooperation players T R outcome results self1 a :
  match results !! "payoff" with
  | Some payoff =>
      init_payoff (blank_object players T R outcome results) players T R payoff
  | None => Ok (blank_object players T R outcome results)
  end = Ok self1 →
  a ∈ cooperation_attributes →
  self1 !! a = Some VNone.
Proof.
  intros Hpay Ha.
  assert (Hblank : blank_object players T R outcome results !! a
                   = Some VNone).
  { apply blank_object_lookup. clear Hpay. by_attribute_cases Ha. }
  destruct (results !! "payoff") as [payoff|]; [|by injection Hpay as <-].
  rewrite (init_payoff_frame _ _ _ _ _ _ a Hpay); [done|].
  clear Hpay Hblank. by_attribute_cases Ha.
Qed.

(** C10: a channel bound to an empty list of repetitions is not bound in
    the dictionary [_results] returns, and [_results] returns the very
    result it returns for the bundle without that channel.  No reducer of
    the channel runs: if it is the payoff channel the payoff attributes the
    constructor presets are left at [None], if it is the cooperation
    channel the cooperation attributes are. *)
Theorem results_empty_channel self players T R outcome channel :
  configured self players T R →
  outcome !! channel = Some [] →
  _results self outcome = _results self (delete channel outcome)
  ∧ (∀ results, _results self outcome = Ok results →
       results !! channel = None)
  ∧ ∀ with_morality obj,
      __init__ players T R outcome with_morality = Ok obj →
      (channel = "payoff" →
         ∀ a, a ∈ ["scores"; "normalised_scores"; "ranking"; "ranked_names";
                   "payoff_matrix"; "wins"] → obj !! a = Some VNone)
      ∧ (channel = "cooperation" →
           ∀ a, a ∈ cooperation_attributes → obj !! a = Some VNone).
Proof.
  intros Hcfg Hempty.
  destruct (results_delete_empty self players T R outcome channel Hcfg Hempty)
    as [Heq Habsent].
  split; [done|]. split; [done|].
  intros with_morality obj Hinit. split.
  - intros -> a Ha.
    destruct (init_without_payoff players T R outcome with_morality obj a
                Hinit) as [results ->].
    { intros raw Hraw. rewrite Hempty in Hraw. by injection Hraw as <-. }
    { clear Hinit. by_attribute_cases Ha. }
    apply blank_object_lookup. clear Hinit. by_attribute_cases Ha.
  - intros -> a Ha.
    apply init_Ok in Hinit as (results & self1 & Hres & Hpay & Hcoop).
    rewrite (results_no_channel _ players T R outcome results "cooperation"
               (configured_configuration players T R outcome) Hres) in Hcoop.
    2:{ intros raw Hraw. rewrite Hempty in Hraw. by injection Hraw as <-. }
    injection Hcoop as <-.
    by eapply payoff_block_keeps_cooperation.
Qed.

(** C9: an engine built with [with_morality = False] has [None] in every
    attribute of the cooperation block, whatever the bundle holds; and an
    engine built from the same arguments with [with_morality = True]
    differs from it in no other attribute. *)
Theorem morality_flag_frame players T R outcome obj :
  __init__ players T R outcome false = Ok obj →
  (∀ a, a ∈ cooperation_attributes → obj !! a = Some VNone)
  ∧ (∀ obj' a, __init__ players T R outcome true = Ok obj' →
       a ∉ cooperation_attributes → obj' !! a = obj !! a).
Proof.
  intros (results & self1 & Hres & Hpay & Hcoop)%init_Ok.
  assert (obj = self1) as ->.
  { destruct (results !! "cooperation"); by injection Hcoop as <-. }
  clear Hcoop. split.
  - intros a Ha. by eapply payoff_block_keeps_cooperation.
  - intros obj' a (results' & self1' & Hres' & Hpay' & Hcoop')%init_Ok Ha.
    rewrite Hres in Hres'. injection Hres' as <-.
    rewrite Hpay in Hpay'. injection Hpay' as <-.
    destruct (results !! "cooperation") as [coop|];
      [|by injection Hcoop' as <-].
    by eapply init_cooperation_frame.
Qed.

End constructor_claims.

(** ** The exporter *)

Lemma append_cons (x : ascii) (a b : string) :
  String x a +:+ b = String x (a +:+ b).
Proof. reflexivity. Qed.

Lemma append_nil_l (a : string) : "" +:+ a = a.
Proof. reflexivity. Qed.

Lemma append_assoc (a b c : string) : (a +:+ b) +:+ c = a +:+ (b +:+ c).
Proof.
  induction a as [|x a IH]; [by rewrite !append_nil_l|].
  by rewrite !append_cons, IH.
Qed.

Lemma append_nil_r (a : string) : a +:+ "" = a.
Proof.
  induction a as [|x a IH]; [done|]. by rewrite append_cons, IH.
Qed.

Lemma table_lines_snoc (rows : list (list string)) (row : list string) :
  table_lines (rows ++ [row]) = table_lines rows +:+ join "," row +:+ newline.
Proof.
  induction rows as [|r rows IH]; simpl.
  - by rewrite append_nil_r, append_nil_l.
  - by rewrite IH, !append_assoc.
Qed.

Lemma quote_field_plain (field : string) :
  plain field = true → quote_field field = field.
Proof.
  unfold plain, quote_field. intros [Hq _]%andb_true_iff.
  by destruct (needs_quote field).
Qed.

(** On fields it need not quote the writer joins them with commas. *)
Lemma writerow_plain (fields : list string) :
  forallb plain fields = true →
  writerow fields = join "," fields +:+ newline.
Proof.
  intros Hplain.
  assert (Hquote : quote_field <$> fields = fields).
  { induction fields as [|f fields IH]; [done|].
    simpl in Hplain. apply andb_true_iff in Hplain as [Hf Hrest].
    by rewrite fmap_cons, quote_field_plain, IH. }
  destruct fields as [|f [|g rest]]; [done| |].
  - destruct f as [|c f]; [by simpl in Hplain|].
    change (writerow [String c f])
      with (join "," (quote_field <$> [String c f]) +:+ newline).
    by rewrite Hquote.
  - assert (writerow (f :: g :: rest)
            = join "," (quote_field <$> f :: g :: rest) +:+ newline) as ->
      by (by destruct f).
    by rewrite Hquote.
Qed.

Lemma comprehension_Ok {A B : Type} (f : A → result B) (g : A → B)
    (l : list A) :
  (∀ x, x ∈ l → f x = Ok (g x)) → comprehension f l = Ok (g <$> l).
Proof.
  induction l as [|x l IH]; intros Hf; simpl; [done|].
  rewrite Hf by left. simpl. rewrite IH; [done|].
  intros y Hy. apply Hf. by right.
Qed.

Section exporter.
Context {num : Type} `{!Numeric num}.
Implicit Types (obj : gmap string (value num)).

Lemma csv_spec obj names ranking (normalised_scores : list (list num)) R :
  obj !! "ranked_names" = Some (VStrs names) →
  obj !! "ranking" = Some (VInts ranking) →
  obj !! "normalised_scores" = Some (VMat normalised_scores) →
  obj !! "repetitions" = Some (VInt R) →
  (∀ rank r, rank ∈ ranking → r < R →
     ∃ x, at2 normalised_scores rank r = Some x ∧ plain (str x) = true) →
  csv obj = Ok (join "," names +:+ newline
                +:+ table_lines (exported_row normalised_scores ranking
                                   <$> range R)).
Proof.
  intros Hnames Hranking Hscores HR Hcells.
  unfold csv, attr_range, getattr. rewrite Hnames, HR, Hranking, Hscores.
  simpl.
  lazymatch goal with
  | |- for_each (range R) ?body ?s = _ =>
      destruct (for_range_total
        (λ k csv_string, csv_string =
           join "," names +:+ newline
           +:+ table_lines (exported_row normalised_scores ranking
                              <$> range k))
        (λ csv_string, csv_string =
           join "," names +:+ newline
           +:+ table_lines (exported_row normalised_scores ranking
                              <$> range R))
        R body s) as (text & -> & ->); [| |done|done]
  end.
  - simpl. by rewrite append_nil_r.
  - intros k text Hk ->.
    rewrite (comprehension_Ok _
      (λ rank, default zero (at2 normalised_scores rank k))).
    2:{ intros rank Hrank.
        destruct (Hcells rank k Hrank Hk) as (x & Hx & _).
        rewrite Hx. by apply getitem2_Ok in Hx as ->. }
    eexists. split; [done|].
    rewrite <-list_fmap_compose.
    change (str ∘ _ <$> ranking) with (exported_row normalised_scores ranking k).
    rewrite writerow_plain.
    + rewrite range_S, fmap_app.
      change (exported_row normalised_scores ranking <$> [k])
        with [exported_row normalised_scores ranking k].
      by rewrite table_lines_snoc, !append_assoc.
    + unfold exported_row. apply Is_true_true, forallb_True, Forall_fmap.
      apply Forall_forall. intros rank Hrank. simpl.
      destruct (Hcells rank k Hrank Hk) as (x & -> & Hx). simpl.
      by apply Is_true_true.
Qed.

(** C6: on an engine whose [ranked_names] holds [N] names, whose [ranking]
    holds [N] player indices and whose normalised scores print as fields
    the writer need not quote, [csv()] returns the names comma-joined and a
    line feed, followed by exactly [R] rows, each the comma-joined fields of
    one repetition and a line feed; row [r] has exactly [N] fields, and its
    field [k] is the printed normalised score, for repetition [r], of the
    player at ranking position [k]. *)
Theorem csv_table obj names ranking (normalised_scores : list (list num)) N R :
  obj !! "ranked_names" = Some (VStrs names) →
  obj !! "ranking" = Some (VInts ranking) →
  obj !! "normalised_scores" = Some (VMat normalised_scores) →
  obj !! "repetitions" = Some (VInt R) →
  length names = N →
  length ranking = N →
  (∀ rank r, rank ∈ ranking → r < R →
     ∃ x, at2 normalised_scores rank r = Some x ∧ plain (str x) = true) →
  ∃ rows,
    csv obj = Ok (join "," names +:+ newline +:+ table_lines rows)
    ∧ length rows = R
    ∧ ∀ r, r < R →
        ∃ row, rows !! r = Some row
          ∧ length row = N
          ∧ ∀ k, k < N →
              ∃ rank x, ranking !! k = Some rank
                ∧ at2 normalised_scores rank r = Some x
                ∧ row !! k = Some (str x)
                ∧ plain (str x) = true.
Proof.
  intros Hnames Hranking Hscores HR HlenN HlenR Hcells.
  exists (exported_row normalised_scores ranking <$> range R).
  split; [by apply csv_spec|].
  split; [unfold range; by rewrite length_fmap, length_seq|].
  intros r Hr. exists (exported_row normalised_scores ranking r).
  split; [unfold range; by rewrite list_lookup_fmap, lookup_seq_lt|].
  split; [unfold exported_row; by rewrite length_fmap|].
  intros k Hk.
  destruct (lookup_lt_is_Some_2 ranking k) as [rank Hrank]; [lia|].
  destruct (Hcells rank r) as (x & Hx & Hplain);
    [by eapply list_elem_of_lookup_2|done|].
  exists rank, x. split_and!; [done..| |done].
  unfold exported_row. by rewrite list_lookup_fmap, Hrank; simpl; rewrite Hx.
Qed.

End exporter.

(** ** Malformed bundles *)

Lemma shapedb_shaped {A : Type} (N M R : nat) (t : list (list (list A))) :
  shapedb N M R t = true → shaped N M R t.
Proof.
  unfold shapedb. rewrite andb_true_iff, bool_decide_eq_true.
  rewrite <-Is_true_true, forallb_True, Forall_lookup.
  intros [Hlen Hrows]. split; [done|]. intros i row Hrow.
  specialize (Hrows i row Hrow). apply andb_True in Hrows as [HM Hcells].
  apply bool_decide_unpack in HM. split; [done|].
  rewrite forallb_True, Forall_lookup in Hcells.
  intros j cell Hcell. by eapply bool_decide_unpack, Hcells.
Qed.

Lemma malformed_unfit {A : Type} (N R : nat) (raw : list (list (list A))) :
  malformed N R raw → fits N R raw = false.
Proof.
  intros Hbad. apply not_true_is_false. unfold fits.
  rewrite andb_true_iff, bool_decide_eq_true.
  rewrite <-Is_true_true, forallb_True, Forall_lookup.
  intros [Hlen Hall].
  destruct Hbad as [[HN HR]|(r & rm & i & j & Hr & Hi & Hj & Hnone)]; [lia|].
  specialize (Hall r rm Hr). rewrite forallb_True, Forall_forall in Hall.
  specialize (Hall i). rewrite forallb_True, Forall_forall in Hall.
  assert (Hsome : is_Some (at2 rm i j)).
  { eapply bool_decide_unpack, Hall; apply elem_of_seq; lia. }
  rewrite Hnone in Hsome. by destruct Hsome.
Qed.

Lemma forallb_false_lookup {A : Type} (f : A → bool) (l : list A) :
  forallb f l = false → ∃ i x, l !! i = Some x ∧ f x = false.
Proof.
  induction l as [|a l IH]; [done|]. simpl.
  intros [Ha|Hl]%andb_false_iff.
  - by exists 0, a.
  - destruct (IH Hl) as (i & x & Hx & Hf). by exists (S i), x.
Qed.

Lemma unfit_malformed {A : Type} (N R : nat) (raw : list (list (list A))) :
  fits N R raw = false → malformed N R raw.
Proof.
  unfold fits. intros [Hlen|Hall]%andb_false_iff.
  - apply bool_decide_eq_false in Hlen. left. lia.
  - right.
    apply forallb_false_lookup in Hall as (r & rm & Hr & Hrows).
    apply forallb_false_lookup in Hrows as (ki & i & Hi & Hcols).
    apply forallb_false_lookup in Hcols as (kj & j & Hj & Hcell).
    apply lookup_seq in Hi as [-> Hi]. apply lookup_seq in Hj as [-> Hj].
    apply bool_decide_eq_false in Hcell.
    exists r, rm, ki, kj. split_and!; [done..|].
    by apply eq_None_not_Some.
Qed.

Section malformed_bundles.
Context {num : Type} `{!Numeric num}
        `{!PayoffModule num} `{!CooperationModule num}.
Implicit Types (outcome : gmap string (list (list (list num)))).

(** C2, as the code has it: a channel with a repetition beyond [R], or
    with a repetition matrix lacking an entry at some [i, j < N], makes the
    constructor raise an [IndexError] while reshaping, before any reducer
    runs.  A bundle with no such channel is reshaped, and a channel of it
    with fewer than [R] repetitions (but at least one) is bound to a tensor
    that holds the repetitions given and [0] for the ones missing. *)
Theorem malformed_bundle_detection players T R outcome with_morality
    channel raw :
  outcome !! channel = Some raw →
  (malformed (length players) R raw →
     __init__ players T R outcome with_morality = Raise IndexError)
  ∧ ((∀ ch raw', outcome !! ch = Some raw' →
        ¬ malformed (length players) R raw') →
     raw ≠ [] →
     ∃ results canonical,
       _results (configuration players T R outcome) outcome = Ok results
       ∧ results !! channel = Some canonical
       ∧ ∀ i j r, i < length players → j < length players → r < R →
           (r < length raw →
              ∃ x, at3 raw r i j = Some x ∧ at3 canonical i j r = Some x)
           ∧ (length raw ≤ r → at3 canonical i j r = Some zero)).
Proof.
  intros Hraw.
  pose proof (configured_configuration players T R outcome) as Hcfg.
  destruct (results_spec _ players T R Hcfg outcome) as [Hfit Hunfit].
  split.
  - intros Hbad%malformed_unfit. unfold __init__.
    fold (configuration players T R outcome). rewrite Hunfit; [done|].
    intros Hall. specialize (Hall channel raw Hraw). simpl in Hall. congruence.
  - intros Hgood Hne.
    assert (Hall : map_Forall
      (λ _ raw', fits (length players) R raw' = true) outcome).
    { intros ch raw' Hraw'. simpl.
      destruct (fits (length players) R raw') eqn:Hfits; [done|].
      by destruct (Hgood ch raw' Hraw'); apply unfit_malformed. }
    rewrite (Hfit Hall).
    exists (omap (reshaped (length players) R) outcome),
           (canonical (length players) R raw).
    split; [done|]. split.
    { rewrite lookup_omap, Hraw. simpl. by destruct raw. }
    intros i j r Hi Hj Hr. rewrite at3_canonical by done. split.
    + intros Hlt. destruct (lookup_lt_is_Some_2 raw r Hlt) as [rm Hrm].
      destruct (proj1 (fits_spec players R raw) (Hall channel raw Hraw))
        as [_ Hentries].
      destruct (Hentries r rm Hrm i j Hi Hj) as [x Hx].
      exists x. by rewrite (at3_lookup raw r rm i j Hrm), Hx.
    + intros Hge. unfold at3 at 1, at2.
      by rewrite (proj2 (lookup_ge_None raw r) Hge).
Qed.

End malformed_bundles.

(** ** Exact arithmetic on the rationals *)

Lemma Qsum_neg (l : list Q) :
  (Qsum ((λ a, Qred (- a)) <$> l) == - Qsum l)%Q.
Proof.
  induction l as [|x l IH]; [done|].
  rewrite fmap_cons. unfold Qsum in *. simpl. rewrite IH, Qred_correct. ring.
Qed.

#[global] Instance Q_exact : ExactArith Q.
Proof.
  split; simpl.
  - intros a b. apply Qred_complete. rewrite Qred_correct. ring.
  - intros a. by rewrite (Qred_complete (a - a) 0) by ring.
  - intros a t. apply Qred_complete. rewrite !Qred_correct.
    unfold Qdiv. ring.
  - intros t. by rewrite (Qred_complete (0 / t) 0) by (unfold Qdiv; ring).
  - intros l. apply Qred_complete.
    rewrite length_fmap, Qred_correct, Qsum_neg. unfold Qdiv. ring.
Qed.

(** ** The claims on the example tournament *)

Lemma two_outcome_consistent channel raw :
  two_outcome !! channel = Some raw → consistent 2 2 raw.
Proof.
  unfold two_outcome.
  intros [[_ <-]|[_ [[_ <-]|[_ H]]%lookup_insert_Some]]%lookup_insert_Some.
  - by apply shapedb_shaped.
  - by apply shapedb_shaped.
  - by rewrite lookup_empty in H.
Defined.

Lemma two_results :
  _results (configuration two_players 2 2 two_outcome) two_outcome
  = Ok (omap (reshaped 2 2) two_outcome).
Proof. vm_compute. reflexivity. Defined.

Lemma two_results_payoff :
  omap (reshaped 2 2) two_outcome !! "payoff" = Some two_canonical_payoff.
Proof. vm_compute. reflexivity. Defined.

Lemma results_reindexes_witness :
  ∃ results,
    _results (configuration two_players 2 2 two_outcome) two_outcome
    = Ok results
    ∧ ∀ channel raw i j r,
        two_outcome !! channel = Some raw →
        i < 2 → j < 2 → r < 2 →
        ∃ canonical x,
          results !! channel = Some canonical
          ∧ at3 raw r i j = Some x
          ∧ at3 canonical i j r = Some x.
Proof.
  apply (results_reindexes (configuration two_players 2 2 two_outcome)
           two_players 2 2 two_outcome).
  - apply configured_configuration.
  - exact two_outcome_consistent.
Defined.

Lemma payoff_diffs_matrix_mean_witness :
  ∃ m, _payoff_diffs_matrix (configuration two_players 2 2 two_outcome)
         two_canonical_payoff = Ok m
       ∧ ∀ i j, i < 2 → j < 2 →
           ∃ diffs,
             at2 m i j = Some (mean diffs)
             ∧ length diffs = 2
             ∧ ∀ r, r < 2 →
                 ∃ a b, at3 two_canonical_payoff i j r = Some a
                        ∧ at3 two_canonical_payoff j i r = Some b
                        ∧ diffs !! r = Some (div (sub a b) (float 2)).
Proof.
  apply (payoff_diffs_matrix_mean (configuration two_players 2 2 two_outcome)
           two_players 2 2 two_outcome (omap (reshaped 2 2) two_outcome)).
  - apply configured_configuration.
  - exact two_results.
  - exact two_results_payoff.
  - lia.
Defined.

Lemma payoff_diffs_matrix_antisymmetric_witness :
  ∃ m, _payoff_diffs_matrix (configuration two_players 2 2 two_outcome)
         two_canonical_payoff = Ok m
       ∧ ∀ i j, i < 2 → j < 2 →
           ∃ x y, at2 m i j = Some x ∧ at2 m j i = Some y ∧ x = neg y.
Proof.
  apply (payoff_diffs_matrix_antisymmetric
           (configuration two_players 2 2 two_outcome)
           two_players 2 2 two_outcome (omap (reshaped 2 2) two_outcome)).
  - apply configured_configuration.
  - exact two_results.
  - exact two_results_payoff.
  - lia.
Defined.

Lemma score_diffs_flattened_witness :
  ∃ diffs, _score_diffs (configuration two_players 2 2 two_outcome)
             two_canonical_payoff = Ok diffs
    ∧ length diffs = 2
    ∧ ∀ i, i < 2 →
        ∃ row, diffs !! i = Some row
          ∧ length row = 2 * 2
          ∧ (∀ j r, j < 2 → r < 2 →
               ∃ a b, at3 two_canonical_payoff i j r = Some a
                      ∧ at3 two_canonical_payoff j i r = Some b
                      ∧ row !! (j * 2 + r) = Some (div (sub a b) (float 2)))
          ∧ (∀ r, r < 2 → row !! (i * 2 + r) = Some zero).
Proof.
  apply (score_diffs_flattened (configuration two_players 2 2 two_outcome)
           two_players 2 2 two_outcome (omap (reshaped 2 2) two_outcome)).
  - apply configured_configuration.
  - exact two_results.
  - exact two_results_payoff.
  - lia.
Defined.

Example two_score_diffs :
  _score_diffs (configuration two_players 2 2 two_outcome) two_canonical_payoff
  = Ok [ [0; 0; -5; -2]; [5; 2; 0; 0] ]%Q.
Proof. vm_compute. reflexivity. Qed.

Example two_payoff_diffs_matrix :
  _payoff_diffs_matrix (configuration two_players 2 2 two_outcome)
    two_canonical_payoff
  = Ok [ [0; -7 # 2]; [7 # 2; 0] ]%Q.
Proof. vm_compute. reflexivity. Qed.

Lemma built_Ok (r : result (gmap string (value Q))) :
  returns r = true → r = Ok (built r).
Proof. by destruct r. Defined.

Lemma two_engine_built :
  __init__ two_players 2 2 two_outcome true = Ok two_engine.
Proof. unfold two_engine. apply built_Ok. vm_compute. reflexivity. Defined.

Lemma two_engine_cells rank r :
  rank ∈ [1; 0] → r < 2 →
  ∃ x : Q, at2 [ [3; 9 # 2]; [6; 9 # 2] ]%Q rank r = Some x
           ∧ plain (str x) = true.
Proof.
  rewrite !elem_of_cons, elem_of_nil. intros Hrank Hr.
  destruct r as [|[|r]]; [| |lia];
    destruct_or?; subst; try done; eexists; split; reflexivity.
Defined.

Lemma csv_table_witness :
  ∃ rows,
    csv two_engine
    = Ok (join "," ["Defector"; "Cooperator"] +:+ newline +:+ table_lines rows)
    ∧ length rows = 2
    ∧ ∀ r, r < 2 →
        ∃ row, rows !! r = Some row
          ∧ length row = 2
          ∧ ∀ k, k < 2 →
              ∃ rank x, [1; 0] !! k = Some rank
                ∧ at2 [ [3; 9 # 2]; [6; 9 # 2] ]%Q rank r = Some x
                ∧ row !! k = Some (str x)
                ∧ plain (str x) = true.
Proof.
  apply (csv_table two_engine ["Defector"; "Cooperator"] [1; 0]
           [ [3; 9 # 2]; [6; 9 # 2] ]%Q 2 2).
  - vm_compute. reflexivity.
  - vm_compute. reflexivity.
  - vm_compute. reflexivity.
  - vm_compute. reflexivity.
  - reflexivity.
  - reflexivity.
  - exact two_engine_cells.
Defined.

Example two_engine_csv :
  csv two_engine
  = Ok ("Defector,Cooperator" +:+ newline
        +:+ "6,3" +:+ newline +:+ "9/2,9/2" +:+ newline).
Proof. vm_compute. reflexivity. Qed.

Lemma cooperation_engine_built :
  __init__ two_players 2 2 cooperation_outcome true = Ok cooperation_engine.
Proof. unfold cooperation_engine. apply built_Ok. vm_compute. reflexivity. Defined.

Lemma cooperation_outcome_no_payoff raw :
  cooperation_outcome !! "payoff" = Some raw → raw = [].
Proof. vm_compute. discriminate. Defined.

Lemma csv_without_payoff_raises_witness :
  csv cooperation_engine = Raise TypeError.
Proof.
  apply (csv_without_payoff_raises two_players 2 2 cooperation_outcome true).
  - exact cooperation_engine_built.
  - exact cooperation_outcome_no_payoff.
Defined.

Lemma payoff_attributes_without_payoff_witness :
  (∀ a, a ∈ ["scores"; "normalised_scores"; "ranking"; "ranked_names";
             "payoff_matrix"; "wins"] →
     getattr cooperation_engine a = Ok VNone)
  ∧ (∀ a, a ∈ ["payoff_stddevs"; "payoff_diffs_matrix"; "score_diffs"] →
       getattr cooperation_engine a = Raise AttributeError).
Proof.
  apply (payoff_attributes_without_payoff
           two_players 2 2 cooperation_outcome true).
  - exact cooperation_engine_built.
  - exact cooperation_outcome_no_payoff.
Defined.

Lemma two_engine_plain_built :
  __init__ two_players 2 2 two_outcome false = Ok two_engine_plain.
Proof. unfold two_engine_plain. apply built_Ok. vm_compute. reflexivity. Defined.

Lemma morality_flag_frame_witness :
  (∀ a, a ∈ cooperation_attributes → two_engine_plain !! a = Some VNone)
  ∧ (∀ obj' a, __init__ two_players 2 2 two_outcome true = Ok obj' →
       a ∉ cooperation_attributes → obj' !! a = two_engine_plain !! a).
Proof.
  apply (morality_flag_frame two_players 2 2 two_outcome).
  exact two_engine_plain_built.
Defined.

Example two_engine_cooperation :
  two_engine !! "cooperation" = Some (VMat [ [4; 3]; [1; 0] ]%Q)
  ∧ two_engine_plain !! "cooperation" = Some VNone
  ∧ two_engine_plain !! "scores" = Some (VMat [ [6; 9]; [12; 9] ]%Q).
Proof. vm_compute. by split_and!. Qed.

Lemma results_empty_channel_witness :
  _results (configuration two_players 2 2 empty_payoff_outcome)
    empty_payoff_outcome
  = _results (configuration two_players 2 2 empty_payoff_outcome)
      (delete "payoff" empty_payoff_outcome)
  ∧ (∀ results,
       _results (configuration two_players 2 2 empty_payoff_outcome)
         empty_payoff_outcome = Ok results →
       results !! "payoff" = None)
  ∧ ∀ with_morality obj,
      __init__ two_players 2 2 empty_payoff_outcome with_morality = Ok obj →
      ("payoff" = "payoff" →
         ∀ a, a ∈ ["scores"; "normalised_scores"; "ranking"; "ranked_names";
                   "payoff_matrix"; "wins"] → obj !! a = Some VNone)
      ∧ ("payoff" = "cooperation" →
           ∀ a, a ∈ cooperation_attributes → obj !! a = Some VNone).
Proof.
  apply (results_empty_channel
           (configuration two_players 2 2 empty_payoff_outcome)
           two_players 2 2 empty_payoff_outcome "payoff").
  - apply configured_configuration.
  - vm_compute. reflexivity.
Defined.

Example empty_payoff_results :
  _results (configuration two_players 2 2 empty_payoff_outcome)
    empty_payoff_outcome
  = Ok (<["cooperation":=[ [[2; 2]; [2; 1]]; [[0; 1]; [0; 0]] ]%Q]> ∅).
Proof. vm_compute. reflexivity. Qed.

(** C2 fails as stated: configured for three repetitions, the engine takes
    a payoff channel with two.  The bundle is inconsistent with [R = 3],
    yet the constructor returns: the third repetition of the canonical
    tensor is left at [0] and the reducers run on it. *)
Lemma short_channel_accepted :
  ¬ consistent 2 3 two_payoff
  ∧ ∃ obj results,
      __init__ two_players 2 3 short_outcome true = Ok obj
      ∧ obj !! "results" = Some (VDict results)
      ∧ results !! "payoff"
        = Some [ [[6; 6; 0]; [0; 3; 0]]; [[10; 7; 0]; [2; 2; 0]] ]%Q
      ∧ obj !! "scores" = Some (VMat [ [6; 9; 0]; [12; 9; 0] ]%Q).
Proof.
  split; [by intros [Hlen _]|].
  exists (built (__init__ two_players 2 3 short_outcome true)),
         (omap (reshaped 2 3) short_outcome).
  split_and!.
  - apply built_Ok. vm_compute. reflexivity.
  - vm_compute. reflexivity.
  - vm_compute. reflexivity.
  - vm_compute. reflexivity.
Qed.

Lemma malformed_bundle_detection_witness :
  (malformed 2 3 two_payoff →
     __init__ two_players 2 3 short_outcome true = Raise IndexError)
  ∧ ((∀ ch raw', short_outcome !! ch = Some raw' → ¬ malformed 2 3 raw') →
     two_payoff ≠ [] →
     ∃ results canonical,
       _results (configuration two_players 2 3 short_outcome) short_outcome
       = Ok results
       ∧ results !! "payoff" = Some canonical
       ∧ ∀ i j r, i < 2 → j < 2 → r < 3 →
           (r < length two_payoff →
              ∃ x, at3 two_payoff r i j = Some x
                   ∧ at3 canonical i j r = Some x)
           ∧ (length two_payoff ≤ r → at3 canonical i j r = Some zero)).
Proof.
  apply (malformed_bundle_detection two_players 2 3 short_outcome true
           "payoff" two_payoff).
  vm_compute. reflexivity.
Defined.

(** A channel with more repetitions than configured is detected. *)
Example long_channel_rejected :
  malformed 2 1 two_payoff
  ∧ __init__ two_players 2 1 short_outcome true = Raise IndexError.
Proof. split; [left; simpl; lia|]. vm_compute. reflexivity. Qed.

(** So is a repetition matrix that is too small. *)
Example ragged_channel_rejected :
  malformed 2 1 [ [[6; 0]; [10]] ]%Q
  ∧ __init__ two_players 2 1 (<["payoff":=[ [[6; 0]; [10]] ]%Q]> ∅) true
    = Raise IndexError.
Proof.
  split.
  { right. exists 0, [[6; 0]; [10]]%Q, 1, 1. split_and!; [done|lia|lia|done]. }
  vm_compute. reflexivity.
Qed.

(** * Further properties *)

(** ** The reshaper: failures, keys, shapes, degenerate configurations *)

Section reshaper_behaviour.
Context {num : Type} `{!Numeric num}.
Implicit Types (self : gmap string (value num))
               (outcome : gmap string (list (list (list num)))).

(** X1: on a configured engine [_results] raises exactly when a channel of
    the bundle is malformed, and what it raises is an [IndexError]. *)
Theorem results_raises_iff self players T R outcome e :
  configured self players T R →
  _results self outcome = Raise e
  ↔ e = IndexError
    ∧ ∃ channel raw, outcome !! channel = Some raw
                     ∧ malformed (length players) R raw.
Proof.
  intros Hcfg.
  destruct (results_spec self players T R Hcfg outcome) as [Hfit Hunfit].
  split.
  - intros Hrun.
    destruct (decide (map_Forall
      (λ _ raw, fits (length players) R raw = true) outcome)) as [Hall|Hnot].
    { by rewrite (Hfit Hall) in Hrun. }
    rewrite (Hunfit Hnot) in Hrun. injection Hrun as <-. split; [done|].
    apply map_not_Forall in Hnot as (ch & raw & Hraw & Hbad); [|apply _].
    exists ch, raw. split; [done|]. apply unfit_malformed.
    by destruct (fits (length players) R raw).
  - intros [-> (ch & raw & Hraw & Hbad)]. apply Hunfit.
    intros Hall. specialize (Hall ch raw Hraw). simpl in Hall.
    apply malformed_unfit in Hbad. congruence.
Qed.

(** X2: the dictionary [_results] returns has exactly the channels of the
    bundle that carry at least one repetition. *)
Theorem results_keys self players T R outcome results channel :
  configured self players T R →
  _results self outcome = Ok results →
  is_Some (results !! channel)
  ↔ ∃ raw, outcome !! channel = Some raw ∧ raw ≠ [].
Proof.
  intros Hcfg Hrun.
  destruct (results_Ok self players T R outcome results Hcfg Hrun) as [-> _].
  rewrite lookup_omap. split.
  - intros [t Ht]. destruct (outcome !! channel) as [raw|]; [|done].
    exists raw. split; [done|]. by intros ->.
  - intros (raw & -> & Hne). simpl. destruct raw; [done|]. by eexists.
Qed.

(** X3: every tensor [_results] binds has [N] rows of [N] cells of [R]
    values, whatever the sizes of the raw matrices it was copied from. *)
Theorem results_tensors_shaped self players T R outcome results channel t :
  configured self players T R →
  _results self outcome = Ok results →
  results !! channel = Some t →
  shaped (length players) (length players) R t.
Proof. intros Hcfg Hrun Ht. by eapply results_shaped. Qed.

(** X4: without players nothing is ever subscripted: [_results] returns,
    whatever the bundle, and binds every channel with at least one
    repetition to the empty tensor. *)
Theorem results_without_players self T R outcome :
  configured self [] T R →
  ∃ results,
    _results self outcome = Ok results
    ∧ ∀ channel raw, outcome !! channel = Some raw → raw ≠ [] →
        results !! channel = Some [].
Proof.
  intros Hcfg.
  destruct (results_spec self [] T R Hcfg outcome) as [Hfit _].
  eexists. split.
  - apply Hfit. intros ch raw _. cbv beta. apply (fits_spec [] R raw).
    split; [by left|]. intros r rm _ i j Hi. simpl in Hi. lia.
  - intros ch raw Hraw Hne. rewrite lookup_omap, Hraw. simpl.
    by destruct raw.
Qed.

(** X5: an engine configured for zero repetitions and at least one player
    accepts only channels without repetitions, so the dictionary [_results]
    returns, when it returns, is empty. *)
Theorem results_without_repetitions self players T outcome results :
  configured self players T 0 →
  players ≠ [] →
  _results self outcome = Ok results →
  results = ∅.
Proof.
  intros Hcfg Hne Hrun.
  destruct (results_Ok self players T 0 outcome results Hcfg Hrun)
    as [-> Hall].
  apply map_eq. intros ch. rewrite lookup_omap, lookup_empty.
  destruct (outcome !! ch) as [raw|] eqn:Hraw; [|done]. simpl.
  specialize (Hall ch raw Hraw). simpl in Hall.
  apply fits_spec in Hall as [[Hlen|Hlen] _].
  - by destruct players.
  - by destruct raw; [|simpl in Hlen; lia].
Qed.

(** X6: on a configured engine the null matrices are full of zeros:
    [_null_matrix] is [N] by [N], [_null_results_matrix] is [N] by [N] by
    [R]. *)
Theorem null_matrices_zero self players T R :
  configured self players T R →
  ∃ m t,
    _null_matrix self = Ok m
    ∧ mshaped (length players) (length players) m
    ∧ (∀ i j, i < length players → j < length players →
         at2 m i j = Some zero)
    ∧ _null_results_matrix self = Ok t
    ∧ shaped (length players) (length players) R t
    ∧ (∀ i j r, i < length players → j < length players → r < R →
         at3 t i j r = Some zero).
Proof.
  intros Hcfg.
  exists (replicate (length players) (replicate (length players) zero)),
         (canonical (length players) R []).
  split_and!.
  - unfold _null_matrix.
    rewrite (attr_range_nplayers self players T R Hcfg). simpl.
    f_equal. rewrite <-(fmap_const_range _ (length players)).
    apply list_fmap_ext. intros _ i _. apply fmap_const_range.
  - apply mshaped_replicate.
  - intros i j Hi Hj. by apply at2_replicate.
  - by apply (null_results_matrix_canonical self players T R).
  - apply shaped_canonical.
  - intros i j r Hi Hj Hr. by rewrite at3_canonical.
Qed.

End reshaper_behaviour.

(** ** The payoff differences: failures and how the two methods relate *)


(** A loop over a non-empty range whose first iteration raises. *)
Lemma for_range_first_Raise {S : Type} (n : nat) (body : nat → S → result S)
    (s : S) (e : exn) :
  0 < n → body 0 s = Raise e → for_each (range n) body s = Raise e.
Proof.
  intros Hn Hbody. destruct n as [|n]; [lia|].
  unfold range. simpl. by rewrite Hbody.
Qed.

Lemma take_drop_concat_range {A : Type} (f : nat → list A) (R n j : nat) :
  (∀ j, length (f j) = R) → j < n →
  take R (drop (j * R) (concat (f <$> range n))) = f j.
Proof.
  intros Hf Hj.
  apply (list_eq_same_length _ _ R); [done| |].
  - rewrite length_take, length_drop, (length_concat_range f R) by done. nia.
  - intros r x y Hr Hx Hy.
    rewrite lookup_take_lt, lookup_drop in Hx by done.
    rewrite (lookup_concat_range f R) in Hx by done. congruence.
Qed.

Section difference_behaviour.
Context {num : Type} `{!Numeric num}.
Implicit Types (self : gmap string (value num))
               (payoff : list (list (list num))).



(** X8: with zero turns, at least one player and at least one repetition,
    both methods raise a [ZeroDivisionError] on a tensor of the configured
    shape: the first difference they compute divides by [float(0)]. *)
Theorem diffs_zero_turns self players R payoff :
  configured self players 0 R →
  shaped (length players) (length players) R payoff →
  players ≠ [] → 0 < R →
  _score_diffs self payoff = Raise ZeroDivisionError
  ∧ _payoff_diffs_matrix self payoff = Raise ZeroDivisionError.
Proof.
  intros Hcfg Hshape Hne HR.
  assert (HN : 0 < length players) by (destruct players; [done|simpl; lia]).
  assert (Hdiff : payoff_diff self payoff 0 0 0 = Raise ZeroDivisionError).
  { unfold payoff_diff.
    destruct (shaped_at3 _ _ _ payoff 0 0 0 Hshape) as [a Ha]; [done..|].
    apply getitem3_Ok in Ha as ->. simpl.
    by rewrite (attr_int_turns self players 0 R Hcfg). }
  split.
  - unfold _score_diffs.
    rewrite (attr_range_nplayers self players 0 R Hcfg).
    rewrite (attr_range_repetitions self players 0 R Hcfg). simpl.
    apply for_range_first_Raise; [done|].
    apply for_range_first_Raise; [done|].
    apply for_range_first_Raise; [done|].
    by rewrite Hdiff.
  - unfold _payoff_diffs_matrix.
    rewrite (attr_int_nplayers self players 0 R Hcfg).
    rewrite (attr_range_nplayers self players 0 R Hcfg).
    rewrite (attr_range_repetitions self players 0 R Hcfg). simpl.
    apply for_range_first_Raise; [done|].
    apply for_range_first_Raise; [done|].
    rewrite (for_range_first_Raise R _ _ ZeroDivisionError); [done..|].
    by rewrite Hdiff.
Qed.

(** X9: the two methods agree: the matrix [_payoff_diffs_matrix] returns
    is [N] by [N], and its entry [(i, j)] is the mean of the [R] values
    that [_score_diffs] lists for player [i] from position [j * R] on. *)
Theorem payoff_diffs_matrix_of_score_diffs self players T R payoff :
  configured self players T R →
  shaped (length players) (length players) R payoff →
  0 < T →
  ∃ m diffs,
    _payoff_diffs_matrix self payoff = Ok m
    ∧ mshaped (length players) (length players) m
    ∧ _score_diffs self payoff = Ok diffs
    ∧ ∀ i j, i < length players → j < length players →
        ∃ row, diffs !! i = Some row
               ∧ at2 m i j = Some (mean (take R (drop (j * R) row))).
Proof.
  intros Hcfg Hshape HT.
  destruct (payoff_diffs_matrix_spec self players T R Hcfg payoff Hshape HT)
    as (m & Hm & Hmshape & Hat).
  exists m, (player_diffs T R (length players) payoff
             <$> range (length players)).
  split; [done|]. split; [done|]. split; [by apply score_diffs_spec|].
  intros i j Hi Hj. exists (player_diffs T R (length players) payoff i).
  split; [unfold range; by rewrite list_lookup_fmap, lookup_seq_lt|].
  rewrite Hat by done. unfold player_diffs.
  rewrite (take_drop_concat_range _ R); [done| |done].
  intros k. unfold pair_diffs, range. by rewrite length_fmap, length_seq.
Qed.

(** X10: under exact arithmetic the score differences are antisymmetric
    repetition by repetition: what [_score_diffs] lists for player [i]
    against [j] in repetition [r] is the negation of what it lists for
    player [j] against [i] in that repetition. *)
Theorem score_diffs_antisymmetric `{!ExactArith num}
    self players T R payoff :
  configured self players T R →
  shaped (length players) (length players) R payoff →
  0 < T →
  ∃ diffs,
    _score_diffs self payoff = Ok diffs
    ∧ ∀ i j r, i < length players → j < length players → r < R →
        ∃ row_i row_j x y,
          diffs !! i = Some row_i ∧ diffs !! j = Some row_j
          ∧ row_i !! (j * R + r) = Some x
          ∧ row_j !! (i * R + r) = Some y
          ∧ x = neg y.
Proof.
  intros Hcfg Hshape HT.
  rewrite (score_diffs_spec self players T R Hcfg payoff Hshape HT).
  eexists. split; [done|]. intros i j r Hi Hj Hr.
  assert (Hlookup : ∀ a b, a < length players → b < length players →
    player_diffs T R (length players) payoff a !! (b * R + r)
    = Some (per_turn_diff T payoff a b r)).
  { intros a b Ha Hb. unfold player_diffs.
    rewrite (lookup_concat_range _ R) by
      (done || intros; unfold pair_diffs, range;
               by rewrite length_fmap, length_seq).
    unfold pair_diffs, range. by rewrite list_lookup_fmap, lookup_seq_lt. }
  exists (player_diffs T R (length players) payoff i),
         (player_diffs T R (length players) payoff j),
         (per_turn_diff T payoff i j r), (per_turn_diff T payoff j i r).
  split_and!.
  - unfold range. by rewrite list_lookup_fmap, lookup_seq_lt.
  - unfold range. by rewrite list_lookup_fmap, lookup_seq_lt.
  - by apply Hlookup.
  - by apply Hlookup.
  - apply per_turn_diff_neg.
Qed.

End difference_behaviour.

(** ** The constructor: what a finished engine holds *)

(** [m !! a] for a name [a] and a chain of assignments [m] to names. *)
Ltac lookup_assigned :=
  repeat (rewrite lookup_insert_ne by done); rewrite lookup_insert_eq.

Section method_reads.
Context {num : Type} `{!Numeric num}.
Implicit Types (self : gmap string (value num)).

(** The methods read the configuration of [self] and nothing else. *)
Lemma results_configured_ext self1 self2 players T R outcome :
  configured self1 players T R → configured self2 players T R →
  _results self1 outcome = _results self2 outcome.
Proof.
  intros H1 H2.
  destruct (results_spec self1 players T R H1 outcome) as [Hfit1 Hunfit1].
  destruct (results_spec self2 players T R H2 outcome) as [Hfit2 Hunfit2].
  destruct (decide (map_Forall
    (λ _ raw, fits (length players) R raw = true) outcome)) as [Hall|Hnot].
  - by rewrite Hfit1, Hfit2.
  - by rewrite Hunfit1, Hunfit2.
Qed.

Lemma score_diffs_configured_ext self1 self2 players T R payoff :
  configured self1 players T R → configured self2 players T R →
  _score_diffs self1 payoff = _score_diffs self2 payoff.
Proof.
  intros H1 H2. unfold _score_diffs, payoff_diff.
  rewrite (attr_range_nplayers self1 players T R H1).
  rewrite (attr_range_repetitions self1 players T R H1).
  rewrite (attr_int_turns self1 players T R H1).
  rewrite (attr_range_nplayers self2 players T R H2).
  rewrite (attr_range_repetitions self2 players T R H2).
  by rewrite (attr_int_turns self2 players T R H2).
Qed.

Lemma payoff_diffs_matrix_configured_ext self1 self2 players T R payoff :
  configured self1 players T R → configured self2 players T R →
  _payoff_diffs_matrix self1 payoff = _payoff_diffs_matrix self2 payoff.
Proof.
  intros H1 H2. unfold _payoff_diffs_matrix, payoff_diff.
  rewrite (attr_int_nplayers self1 players T R H1).
  rewrite (attr_range_nplayers self1 players T R H1).
  rewrite (attr_range_repetitions self1 players T R H1).
  rewrite (attr_int_turns self1 players T R H1).
  rewrite (attr_int_nplayers self2 players T R H2).
  rewrite (attr_range_nplayers self2 players T R H2).
  rewrite (attr_range_repetitions self2 players T R H2).
  by rewrite (attr_int_turns self2 players T R H2).
Qed.

(** Assignments to other attributes leave the configuration as it is. *)
Lemma configured_frame self1 self2 players T R :
  configured self1 players T R →
  (∀ a, a ∈ ["players"; "nplayers"; "turns"; "repetitions"] →
     self2 !! a = self1 !! a) →
  configured self2 players T R.
Proof.
  intros (Hp & Hn & Ht & Hr) Hsame. unfold configured.
  rewrite !Hsame by compute_done. done.
Qed.

End method_reads.

Section finished_engine.
Context {num : Type} `{!Numeric num}
        `{!PayoffModule num} `{!CooperationModule num}.
Implicit Types (self obj : gmap string (value num))
               (outcome results : gmap string (list (list (list num)))).

Lemma blank_object_results players T R outcome results :
  blank_object players T R outcome results !! "results"
  = Some (VDict results).
Proof. reflexivity. Qed.

(** What the two blocks leave alone is as the blank object has it. *)
Lemma init_frame players T R outcome with_morality obj :
  __init__ players T R outcome with_morality = Ok obj →
  ∃ results,
    _results (configuration players T R outcome) outcome = Ok results
    ∧ ∀ a, a ∉ payoff_attributes → a ∉ cooperation_attributes →
        obj !! a = blank_object players T R outcome results !! a.
Proof.
  intros (results & self1 & Hres & Hpay & Hcoop)%init_Ok.
  exists results. split; [done|]. intros a Hpa Hca.
  assert (Hself1 : self1 !! a = blank_object players T R outcome results !! a).
  { destruct (results !! "payoff") as [payoff|]; [|by injection Hpay as <-].
    by eapply init_payoff_frame. }
  rewrite <-Hself1.
  destruct (results !! "cooperation") as [coop|]; [|by injection Hcoop as <-].
  destruct with_morality; [|by injection Hcoop as <-].
  by eapply init_cooperation_frame.
Qed.

Lemma init_configured players T R outcome with_morality obj :
  __init__ players T R outcome with_morality = Ok obj →
  configured obj players T R.
Proof.
  intros Hinit.
  destruct (init_frame players T R outcome with_morality obj Hinit)
    as (results & Hres & Hframe).
  unfold configured. rewrite !Hframe by compute_done. done.
Qed.

(** X11: a finished engine holds the arguments it was built from
    ([players], their number, [turns], [repetitions], [outcome]), and its
    [results] attribute is what [_results] returns when called again on the
    finished engine with its own [outcome]. *)
Theorem init_stores_arguments players T R outcome with_morality obj :
  __init__ players T R outcome with_morality = Ok obj →
  configured obj players T R
  ∧ obj !! "outcome" = Some (VDict outcome)
  ∧ ∃ results, obj !! "results" = Some (VDict results)
               ∧ _results obj outcome = Ok results.
Proof.
  intros Hinit.
  destruct (init_frame players T R outcome with_morality obj Hinit)
    as (results & Hres & Hframe).
  assert (Hcfg : configured obj players T R) by (by eapply init_configured).
  split; [done|]. split; [by rewrite Hframe by compute_done|].
  exists results. split; [by rewrite Hframe by compute_done|].
  rewrite <-Hres. apply (results_configured_ext _ _ players T R); [done|].
  apply configured_configuration.
Qed.

(** The payoff block, read backwards. *)
Lemma init_payoff_Ok self players T R payoff self' :
  init_payoff self players T R payoff = Ok self' →
  (∀ a, a ∈ payoff_attributes → ∃ v, self' !! a = Some v ∧ v ≠ VNone)
  ∧ ∃ self1 self2 m diffs,
      (∀ a, a ∉ payoff_attributes → self1 !! a = self !! a)
      ∧ (∀ a, a ∉ payoff_attributes → self2 !! a = self !! a)
      ∧ _payoff_diffs_matrix self1 payoff = Ok m
      ∧ _score_diffs self2 payoff = Ok diffs
      ∧ self' !! "payoff_diffs_matrix" = Some (VMat m)
      ∧ self' !! "score_diffs" = Some (VMat diffs).
Proof.
  unfold init_payoff. intros Hrun. invert_binds Hrun. injection Hrun as <-.
  split.
  - intros a Ha. unfold payoff_attributes in Ha.
    rewrite !elem_of_cons, elem_of_nil in Ha.
    destruct_or?; subst; try done; eexists;
      (split; [lookup_assigned; done|done]).
  - lazymatch goal with
    | Hm : _payoff_diffs_matrix ?s1 payoff = Ok ?m,
      Hd : _score_diffs ?s2 payoff = Ok ?d |- _ =>
        exists s1, s2, m, d; split_and!; [| |exact Hm|exact Hd| |]
    end.
    + intros a Ha. split_not_elem Ha. by rewrite !lookup_insert_ne by done.
    + intros a Ha. split_not_elem Ha. by rewrite !lookup_insert_ne by done.
    + by lookup_assigned.
    + by lookup_assigned.
Qed.

(** The cooperation block, read backwards. *)
Lemma init_cooperation_Ok self players T R coop self' a :
  init_cooperation self players T R coop = Ok self' →
  a ∈ cooperation_attributes →
  ∃ v, self' !! a = Some v ∧ v ≠ VNone.
Proof.
  unfold init_cooperation. intros Hrun Ha. invert_binds Hrun.
  injection Hrun as <-. unfold cooperation_attributes in Ha.
  rewrite !elem_of_cons, elem_of_nil in Ha.
  destruct_or?; subst; try done; eexists;
    (split; [lookup_assigned; done|done]).
Qed.

(** X12: when the payoff channel was reshaped, every payoff attribute of
    the finished engine holds a value, the three the constructor does not
    preset included; and [payoff_diffs_matrix] and [score_diffs] hold what
    [_payoff_diffs_matrix] and [_score_diffs] return when called again on
    the finished engine. *)
Theorem init_payoff_attributes players T R outcome with_morality obj
    results payoff :
  __init__ players T R outcome with_morality = Ok obj →
  obj !! "results" = Some (VDict results) →
  results !! "payoff" = Some payoff →
  (∀ a, a ∈ payoff_attributes → ∃ v, obj !! a = Some v ∧ v ≠ VNone)
  ∧ ∃ m diffs,
      obj !! "payoff_diffs_matrix" = Some (VMat m)
      ∧ _payoff_diffs_matrix obj payoff = Ok m
      ∧ obj !! "score_diffs" = Some (VMat diffs)
      ∧ _score_diffs obj payoff = Ok diffs.
Proof.
  intros Hinit Hresults Hpayoff.
  pose proof (init_configured _ _ _ _ _ _ Hinit) as Hcfg.
  apply init_Ok in Hinit as Hstages.
  destruct Hstages as (results' & self1 & Hres & Hpay & Hcoop).
  destruct (init_frame _ _ _ _ _ _ Hinit) as (results'' & Hres' & Hframe).
  rewrite Hres in Hres'. injection Hres' as <-.
  rewrite (Hframe "results"), blank_object_results in Hresults
    by compute_done.
  injection Hresults as ->.
  rewrite Hpayoff in Hpay.
  assert (Hobj : ∀ a, a ∈ payoff_attributes → obj !! a = self1 !! a).
  { intros a Ha.
    destruct (results !! "cooperation") as [coop|];
      [|by injection Hcoop as <-].
    destruct with_morality; [|by injection Hcoop as <-].
    eapply init_cooperation_frame; [done|].
    clear Hinit Hpay Hcoop Hframe. by_attribute_cases Ha. }
  destruct (init_payoff_Ok _ _ _ _ _ _ Hpay)
    as (Hset & s1 & s2 & m & diffs & Hs1 & Hs2 & Hm & Hd & Hlm & Hld).
  split.
  - intros a Ha. rewrite (Hobj a Ha). by apply Hset.
  - assert (Hblank : configured (blank_object players T R outcome results)
                       players T R) by (by split_and!).
    exists m, diffs. split_and!.
    + by rewrite Hobj by compute_done.
    + rewrite <-Hm.
      apply (payoff_diffs_matrix_configured_ext _ _ players T R); [done|].
      apply (configured_frame _ _ _ _ _ Hblank).
      intros a Ha. apply Hs1. clear -Ha. by_attribute_cases Ha.
    + by rewrite Hobj by compute_done.
    + rewrite <-Hd.
      apply (score_diffs_configured_ext _ _ players T R); [done|].
      apply (configured_frame _ _ _ _ _ Hblank).
      intros a Ha. apply Hs2. clear -Ha. by_attribute_cases Ha.
Qed.

(** X13: when the bundle has no cooperation channel, or one without
    repetitions, the eight cooperation attributes of the finished engine
    are [None], whatever the morality flag. *)
Theorem init_without_cooperation players T R outcome with_morality obj a :
  __init__ players T R outcome with_morality = Ok obj →
  (∀ raw, outcome !! "cooperation" = Some raw → raw = []) →
  a ∈ cooperation_attributes →
  obj !! a = Some VNone.
Proof.
  intros (results & self1 & Hres & Hpay & Hcoop)%init_Ok Hempty Ha.
  rewrite (results_no_channel _ players T R outcome results "cooperation"
             (configured_configuration players T R outcome) Hres Hempty)
    in Hcoop.
  injection Hcoop as <-. by eapply payoff_block_keeps_cooperation.
Qed.

(** X14: when the cooperation channel was reshaped and the morality flag
    is set, every cooperation attribute of the finished engine holds a
    value. *)
Theorem init_cooperation_attributes players T R outcome obj results a :
  __init__ players T R outcome true = Ok obj →
  obj !! "results" = Some (VDict results) →
  is_Some (results !! "cooperation") →
  a ∈ cooperation_attributes →
  ∃ v, obj !! a = Some v ∧ v ≠ VNone.
Proof.
  intros Hinit Hresults [coop Hcoop_present] Ha.
  apply init_Ok in Hinit as Hstages.
  destruct Hstages as (results' & self1 & Hres & Hpay & Hcoop).
  destruct (init_frame _ _ _ _ _ _ Hinit) as (results'' & Hres' & Hframe).
  rewrite Hres in Hres'. injection Hres' as <-.
  rewrite (Hframe "results"), blank_object_results in Hresults
    by compute_done.
  injection Hresults as ->.
  rewrite Hcoop_present in Hcoop.
  by eapply init_cooperation_Ok.
Qed.

End finished_engine.

(** ** The exporter: missing scores, and reading the table back *)

Lemma comprehension_Ok_elem {A B : Type} (f : A → result B) (l : list A)
    (ys : list B) (x : A) :
  comprehension f l = Ok ys → x ∈ l → ∃ y, f x = Ok y.
Proof.
  revert ys. induction l as [|a l IH]; intros ys Hrun Hx.
  - by apply elem_of_nil in Hx.
  - simpl in Hrun. apply bind_Ok in Hrun as (y & Hy & Hrun).
    apply bind_Ok in Hrun as (ys' & Hys & _).
    apply elem_of_cons in Hx as [->|Hx]; eauto.
Qed.

Lemma comprehension_Raise {A B : Type} (e0 : exn) (f : A → result B)
    (l : list A) (e : exn) :
  (∀ x e, f x = Raise e → e = e0) →
  comprehension f l = Raise e → e = e0.
Proof.
  intros Hf. induction l as [|a l IH]; simpl; [done|].
  intros [H|(y & _ & [H|(ys & _ & H)]%bind_Raise)]%bind_Raise; eauto.
  done.
Qed.

Lemma split_on_append (sep : ascii) (a b : string) :
  occurs sep a = false →
  split_on sep (a +:+ String sep b) = a :: split_on sep b.
Proof.
  induction a as [|c a IH]; intros Hfree.
  - rewrite append_nil_l. simpl. by rewrite bool_decide_eq_true_2.
  - simpl in Hfree. apply orb_false_iff in Hfree as [Hc Ha].
    rewrite append_cons. simpl. rewrite Hc, (IH Ha). done.
Qed.

Lemma split_on_free (sep : ascii) (a : string) :
  occurs sep a = false → split_on sep a = [a].
Proof.
  induction a as [|c a IH]; intros Hfree; [done|].
  simpl in Hfree. apply orb_false_iff in Hfree as [Hc Ha].
  simpl. by rewrite Hc, (IH Ha).
Qed.

Lemma occurs_append (c : ascii) (a b : string) :
  occurs c (a +:+ b) = occurs c a || occurs c b.
Proof.
  induction a as [|x a IH]; [done|].
  rewrite append_cons. simpl. by rewrite IH, orb_assoc.
Qed.

Lemma occurs_join (c : ascii) (sep : string) (l : list string) :
  occurs c sep = false →
  (∀ field, field ∈ l → occurs c field = false) →
  occurs c (join sep l) = false.
Proof.
  intros Hsep. induction l as [|x l IH]; intros Hl; [done|].
  destruct l as [|y l]; [apply Hl; by left|].
  change (join sep (x :: y :: l)) with (x +:+ sep +:+ join sep (y :: l)).
  rewrite !occurs_append, Hsep, (Hl x) by left.
  rewrite IH; [done|]. intros f Hf. apply Hl. by right.
Qed.

(** A field the writer leaves as it is has no comma and no line feed. *)
Lemma plain_free (field : string) (c : ascii) :
  plain field = true → special c = true → occurs c field = false.
Proof.
  unfold plain. intros [Hq _]%andb_true_iff Hc.
  apply negb_true_iff in Hq.
  induction field as [|x field IH]; [done|].
  simpl in Hq. apply orb_false_iff in Hq as [Hx Hq].
  simpl. rewrite (IH Hq), orb_false_r.
  apply bool_decide_eq_false. intros ->. congruence.
Qed.

Lemma split_on_join (l : list string) :
  l ≠ [] →
  (∀ field, field ∈ l → occurs comma field = false) →
  split_on comma (join "," l) = l.
Proof.
  induction l as [|x l IH]; intros Hne Hfree; [done|].
  destruct l as [|y l].
  - apply split_on_free, Hfree. by left.
  - change (join "," (x :: y :: l))
      with (x +:+ String comma (join "," (y :: l))).
    rewrite split_on_append by (apply Hfree; by left).
    rewrite IH; [done..|]. intros f Hf. apply Hfree. by right.
Qed.

Lemma split_on_table_lines (rows : list (list string)) :
  (∀ row field, row ∈ rows → field ∈ row → plain field = true) →
  split_on line_feed (table_lines rows) = (join "," <$> rows) ++ [""].
Proof.
  induction rows as [|row rows IH]; intros Hplain; [done|].
  change (table_lines (row :: rows))
    with (join "," row +:+ String line_feed (table_lines rows)).
  rewrite split_on_append.
  - rewrite IH; [done|]. intros r f Hr. apply Hplain. by right.
  - apply occurs_join; [done|]. intros f Hf.
    apply plain_free; [|done]. apply (Hplain row); [by left|done].
Qed.

Section exporter_behaviour.
Context {num : Type} `{!Numeric num}.
Implicit Types (obj : gmap string (value num)).

(** X15: when a ranked player has no normalised score for one of the [R]
    repetitions, [csv()] raises an [IndexError]: it never returns a table
    with a short row. *)
Theorem csv_missing_score obj names ranking
    (normalised_scores : list (list num)) R rank r :
  obj !! "ranked_names" = Some (VStrs names) →
  obj !! "ranking" = Some (VInts ranking) →
  obj !! "normalised_scores" = Some (VMat normalised_scores) →
  obj !! "repetitions" = Some (VInt R) →
  rank ∈ ranking → r < R →
  at2 normalised_scores rank r = None →
  csv obj = Raise IndexError.
Proof.
  intros Hnames Hranking Hscores HR Hrank Hr Hnone.
  destruct (csv obj) as [text|e] eqn:Hrun; revert Hrun;
    unfold csv, attr_range, getattr;
    rewrite Hnames, HR, Hranking, Hscores; simpl.
  - intros Hrun.
    destruct (for_each_Ok_elem (λ _, True) _ _ _ _ Hrun I) as [_ Hall];
      [done|].
    destruct (Hall r) as (s1 & s2 & _ & Hbody); [apply elem_of_seq; lia|].
    apply bind_Ok in Hbody as (data & Hdata & _).
    destruct (comprehension_Ok_elem _ _ _ rank Hdata Hrank) as [y Hy].
    apply getitem2_Ok in Hy. congruence.
  - intros Hrun. f_equal. revert Hrun.
    apply for_each_Raise. intros irep s1 e'.
    intros [H|(data & _ & [=])]%bind_Raise. revert H.
    apply comprehension_Raise. intros x e''. apply getitem2_Raise.
Qed.

(** X16: the table [csv()] returns reads back.  With at least one ranked
    player, names free of commas and line feeds and scores that print as
    plain fields, splitting the text at line feeds gives the header, [R]
    rows and a last empty piece; the header splits at commas into the
    names, and row [r] splits at commas into one field for every ranked
    player, field [k] being the printed normalised score of the player
    ranked [k] for repetition [r]. *)
Theorem csv_reads_back obj names ranking
    (normalised_scores : list (list num)) R :
  obj !! "ranked_names" = Some (VStrs names) →
  obj !! "ranking" = Some (VInts ranking) →
  obj !! "normalised_scores" = Some (VMat normalised_scores) →
  obj !! "repetitions" = Some (VInt R) →
  names ≠ [] → ranking ≠ [] →
  (∀ name, name ∈ names →
     occurs comma name = false ∧ occurs line_feed name = false) →
  (∀ rank r, rank ∈ ranking → r < R →
     ∃ x, at2 normalised_scores rank r = Some x ∧ plain (str x) = true) →
  ∃ text header lines,
    csv obj = Ok text
    ∧ split_on line_feed text = header :: lines ++ [""]
    ∧ split_on comma header = names
    ∧ length lines = R
    ∧ ∀ r line, lines !! r = Some line →
        ∃ fields,
          split_on comma line = fields
          ∧ length fields = length ranking
          ∧ ∀ k rank, ranking !! k = Some rank →
              ∃ x, at2 normalised_scores rank r = Some x
                   ∧ fields !! k = Some (str x).
Proof.
  intros Hnames Hranking Hscores HR Hne_names Hne_ranking Hfree Hcells.
  pose (rows := exported_row normalised_scores ranking <$> range R).
  assert (Hrow : ∀ r field, r < R →
            field ∈ exported_row normalised_scores ranking r →
            plain field = true).
  { intros r field Hr Hfield. unfold exported_row in Hfield.
    apply list_elem_of_fmap in Hfield as (rank & -> & Hrank).
    by destruct (Hcells rank r Hrank Hr) as (x & -> & Hx). }
  assert (Hrows : ∀ row field, row ∈ rows → field ∈ row →
            plain field = true).
  { intros row field Hin. unfold rows in Hin.
    apply list_elem_of_fmap in Hin as (r & -> & Hr%elem_of_seq).
    apply Hrow. lia. }
  exists (join "," names +:+ newline +:+ table_lines rows),
         (join "," names), (join "," <$> rows).
  split; [by apply csv_spec|].
  split_and!.
  - change (join "," names +:+ newline +:+ table_lines rows)
      with (join "," names +:+ String line_feed (table_lines rows)).
    rewrite split_on_append.
    + by rewrite split_on_table_lines.
    + apply occurs_join; [done|]. intros name Hname. by apply Hfree.
  - apply split_on_join; [done|]. intros name Hname. by apply Hfree.
  - unfold rows, range. by rewrite !length_fmap, length_seq.
  - intros r line Hline. unfold rows, range in Hline.
    rewrite <-list_fmap_compose in Hline.
    apply list_lookup_fmap_Some in Hline as (r' & -> & Hr').
    apply lookup_seq in Hr' as [-> Hr]. simpl.
    exists (exported_row normalised_scores ranking r).
    split_and!.
    + apply split_on_join.
      * unfold exported_row. by destruct ranking.
      * intros field Hfield. apply plain_free; [by eapply Hrow|done].
    + unfold exported_row. by rewrite length_fmap.
    + intros k rank Hk.
      destruct (Hcells rank r) as (x & Hx & _);
        [by eapply list_elem_of_lookup_2|done|].
      exists x. split; [done|]. unfold exported_row.
      by rewrite list_lookup_fmap, Hk; simpl; rewrite Hx.
Qed.

End exporter_behaviour.

(** ** The further properties on the example tournament *)

Lemma two_canonical_payoff_shaped : shaped 2 2 2 two_canonical_payoff.
Proof. by apply shapedb_shaped. Defined.

Lemma results_raises_iff_witness :
  _results (configuration two_players 2 1 short_outcome) short_outcome
  = Raise IndexError
  ↔ IndexError = IndexError
    ∧ ∃ channel raw, short_outcome !! channel = Some raw ∧ malformed 2 1 raw.
Proof.
  apply (results_raises_iff (configuration two_players 2 1 short_outcome)
           two_players 2 1 short_outcome IndexError).
  apply configured_configuration.
Defined.

Lemma results_keys_witness :
  is_Some (omap (reshaped 2 2) two_outcome !! "payoff")
  ↔ ∃ raw, two_outcome !! "payoff" = Some raw ∧ raw ≠ [].
Proof.
  apply (results_keys (configuration two_players 2 2 two_outcome)
           two_players 2 2 two_outcome).
  - apply configured_configuration.
  - exact two_results.
Defined.

Lemma results_tensors_shaped_witness : shaped 2 2 2 two_canonical_payoff.
Proof.
  apply (results_tensors_shaped (configuration two_players 2 2 two_outcome)
           two_players 2 2 two_outcome (omap (reshaped 2 2) two_outcome)
           "payoff").
  - apply configured_configuration.
  - exact two_results.
  - exact two_results_payoff.
Defined.

Lemma results_without_players_witness :
  ∃ results,
    _results (configuration [] 2 1 short_outcome) short_outcome = Ok results
    ∧ ∀ channel raw, short_outcome !! channel = Some raw → raw ≠ [] →
        results !! channel = Some [].
Proof.
  apply (results_without_players (configuration [] 2 1 short_outcome) 2 1).
  apply (configured_configuration []).
Defined.

Lemma results_without_repetitions_witness :
  (∅ : gmap string (list (list (list Q)))) = ∅.
Proof.
  apply (results_without_repetitions
           (configuration two_players 2 0 (<["payoff":=[]]> ∅))
           two_players 2 (<["payoff":=[]]> ∅) ∅).
  - apply configured_configuration.
  - done.
  - vm_compute. reflexivity.
Defined.

Lemma null_matrices_zero_witness :
  ∃ (m : list (list Q)) t,
    _null_matrix (configuration two_players 2 2 two_outcome) = Ok m
    ∧ mshaped 2 2 m
    ∧ (∀ i j, i < 2 → j < 2 → at2 m i j = Some zero)
    ∧ _null_results_matrix (configuration two_players 2 2 two_outcome) = Ok t
    ∧ shaped 2 2 2 t
    ∧ (∀ i j r, i < 2 → j < 2 → r < 2 → at3 t i j r = Some zero).
Proof.
  apply (null_matrices_zero (configuration two_players 2 2 two_outcome)
           two_players 2 2).
  apply configured_configuration.
Defined.


Lemma diffs_zero_turns_witness :
  _score_diffs (configuration two_players 0 2 two_outcome)
    two_canonical_payoff = Raise ZeroDivisionError
  ∧ _payoff_diffs_matrix (configuration two_players 0 2 two_outcome)
      two_canonical_payoff = Raise ZeroDivisionError.
Proof.
  apply (diffs_zero_turns (configuration two_players 0 2 two_outcome)
           two_players 2 two_canonical_payoff).
  - apply configured_configuration.
  - exact two_canonical_payoff_shaped.
  - done.
  - lia.
Defined.

Lemma payoff_diffs_matrix_of_score_diffs_witness :
  ∃ m diffs,
    _payoff_diffs_matrix (configuration two_players 2 2 two_outcome)
      two_canonical_payoff = Ok m
    ∧ mshaped 2 2 m
    ∧ _score_diffs (configuration two_players 2 2 two_outcome)
        two_canonical_payoff = Ok diffs
    ∧ ∀ i j, i < 2 → j < 2 →
        ∃ row, diffs !! i = Some row
               ∧ at2 m i j = Some (mean (take 2 (drop (j * 2) row))).
Proof.
  apply (payoff_diffs_matrix_of_score_diffs
           (configuration two_players 2 2 two_outcome) two_players 2 2).
  - apply configured_configuration.
  - exact two_canonical_payoff_shaped.
  - lia.
Defined.

Lemma score_diffs_antisymmetric_witness :
  ∃ diffs,
    _score_diffs (configuration two_players 2 2 two_outcome)
      two_canonical_payoff = Ok diffs
    ∧ ∀ i j r, i < 2 → j < 2 → r < 2 →
        ∃ row_i row_j x y,
          diffs !! i = Some row_i ∧ diffs !! j = Some row_j
          ∧ row_i !! (j * 2 + r) = Some x
          ∧ row_j !! (i * 2 + r) = Some y
          ∧ x = neg y.
Proof.
  apply (score_diffs_antisymmetric
           (configuration two_players 2 2 two_outcome) two_players 2 2).
  - apply configured_configuration.
  - exact two_canonical_payoff_shaped.
  - lia.
Defined.

Lemma init_stores_arguments_witness :
  configured two_engine two_players 2 2
  ∧ two_engine !! "outcome" = Some (VDict two_outcome)
  ∧ ∃ results, two_engine !! "results" = Some (VDict results)
               ∧ _results two_engine two_outcome = Ok results.
Proof.
  apply (init_stores_arguments two_players 2 2 two_outcome true).
  exact two_engine_built.
Defined.

Lemma two_engine_results :
  two_engine !! "results" = Some (VDict (omap (reshaped 2 2) two_outcome)).
Proof. vm_compute. reflexivity. Defined.

Lemma init_payoff_attributes_witness :
  (∀ a, a ∈ payoff_attributes → ∃ v, two_engine !! a = Some v ∧ v ≠ VNone)
  ∧ ∃ m diffs,
      two_engine !! "payoff_diffs_matrix" = Some (VMat m)
      ∧ _payoff_diffs_matrix two_engine two_canonical_payoff = Ok m
      ∧ two_engine !! "score_diffs" = Some (VMat diffs)
      ∧ _score_diffs two_engine two_canonical_payoff = Ok diffs.
Proof.
  apply (init_payoff_attributes two_players 2 2 two_outcome true two_engine
           (omap (reshaped 2 2) two_outcome)).
  - exact two_engine_built.
  - exact two_engine_results.
  - exact two_results_payoff.
Defined.

Lemma init_without_cooperation_witness :
  built (__init__ two_players 2 2 short_outcome true) !! "cooperation"
  = Some VNone.
Proof.
  apply (init_without_cooperation two_players 2 2 short_outcome true).
  - apply built_Ok. vm_compute. reflexivity.
  - vm_compute. discriminate.
  - compute_done.
Defined.

Lemma init_cooperation_attributes_witness :
  ∃ v, two_engine !! "eigenjesus_rating" = Some v ∧ v ≠ VNone.
Proof.
  apply (init_cooperation_attributes two_players 2 2 two_outcome two_engine
           (omap (reshaped 2 2) two_outcome)).
  - exact two_engine_built.
  - exact two_engine_results.
  - vm_compute. by eexists.
  - compute_done.
Defined.

Lemma csv_missing_score_witness :
  csv (<["repetitions":=VInt 3]> two_engine) = Raise IndexError.
Proof.
  apply (csv_missing_score (<["repetitions":=VInt 3]> two_engine)
           ["Defector"; "Cooperator"] [1; 0]
           [ [3; 9 # 2]; [6; 9 # 2] ]%Q 3 1 2).
  - vm_compute. reflexivity.
  - vm_compute. reflexivity.
  - vm_compute. reflexivity.
  - vm_compute. reflexivity.
  - compute_done.
  - lia.
  - reflexivity.
Defined.

Lemma two_names_free name :
  name ∈ ["Defector"; "Cooperator"] →
  occurs comma name = false ∧ occurs line_feed name = false.
Proof.
  rewrite !elem_of_cons, elem_of_nil. intros H.
  destruct_or?; subst; done.
Defined.

Lemma csv_reads_back_witness :
  ∃ text header lines,
    csv two_engine = Ok text
    ∧ split_on line_feed text = header :: lines ++ [""]
    ∧ split_on comma header = ["Defector"; "Cooperator"]
    ∧ length lines = 2
    ∧ ∀ r line, lines !! r = Some line →
        ∃ fields,
          split_on comma line = fields
          ∧ length fields = length [1; 0]
          ∧ ∀ k rank, [1; 0] !! k = Some rank →
              ∃ x, at2 [ [3; 9 # 2]; [6; 9 # 2] ]%Q rank r = Some x
                   ∧ fields !! k = Some (str x).
Proof.
  apply (csv_reads_back two_engine ["Defector"; "Cooperator"] [1; 0]
           [ [3; 9 # 2]; [6; 9 # 2] ]%Q 2).
  - vm_compute. reflexivity.
  - vm_compute. reflexivity.
  - vm_compute. reflexivity.
  - vm_compute. reflexivity.
  - done.
  - done.
  - exact two_names_free.
  - exact two_engine_cells.
Defined.

(** The exported table of the example tournament, line by line. *)
Example two_engine_csv_lines :
  split_on line_feed
    ("Defector,Cooperator" +:+ newline +:+ "6,3" +:+ newline
     +:+ "9/2,9/2" +:+ newline)
  = ["Defector,Cooperator"; "6,3"; "9/2,9/2"; ""].
Proof. reflexivity. Qed.
